(** * MPT benchmark driver (category/mpt/bench/mpt_bench.cpp)

    A shallow embedding of the workload generator, the per-batch
    deduplication, the assembly of the update lists and the versioned
    commit loop of [main], together with [get_dir_size] and [hash_string].

    Machine integers are integers of [Z] with their range written out:
    signed overflow and division by zero are faults of the run, unsigned
    arithmetic wraps.  The generator ([small_prng]), the hash ([keccak256])
    and the store ([Db]) are collaborators whose code is not part of this
    file of the repository: the development is parametric in them. *)

From Stdlib Require Import ZArith String Ascii Bool Lia Sorted Permutation List.
From Stdlib Require Import DecimalString.
Import ListNotations.
Local Open Scope Z_scope.

(** ** Machine integers *)

Module MachineInt.

Definition INT_MIN : Z := - 2 ^ 31.
Definition INT_MAX : Z := 2 ^ 31 - 1.
Definition UINT64_MAX : Z := 2 ^ 64 - 1.

Definition in_int (z : Z) : bool := (INT_MIN <=? z) && (z <=? INT_MAX).

(** Conversions to a fixed-width type (modular, as C++20 defines them). *)
Definition to_uint8 (z : Z) : Z := z mod 2 ^ 8.
Definition to_uint32 (z : Z) : Z := z mod 2 ^ 32.
Definition to_uint64 (z : Z) : Z := z mod 2 ^ 64.
Definition to_int32 (z : Z) : Z := (z + 2 ^ 31) mod 2 ^ 32 - 2 ^ 31.

Definition add64 (a b : Z) : Z := to_uint64 (a + b).

End MachineInt.
Export MachineInt.

(** ** Outcome of a computation that may fault *)

Inductive fault : Type :=
| DivisionByZero   (* integer division or remainder by zero *)
| SignedOverflow   (* overflow of an [int] operation *)
| OutOfRange       (* subscript outside a vector *)
| LengthError      (* std::length_error of vector::reserve *)
| FilesystemError. (* std::filesystem::filesystem_error *)

Inductive outcome (A : Type) : Type :=
| Done (a : A)
| Fault (f : fault).
Arguments Done {A} a.
Arguments Fault {A} f.

Definition bind {A B : Type} (m : outcome A) (k : A -> outcome B) : outcome B :=
  match m with
  | Done a => k a
  | Fault f => Fault f
  end.

Declare Scope outcome_scope.
Delimit Scope outcome_scope with outcome.
Notation "'let*' x ':=' m 'in' k" := (bind m (fun x => k))
  (at level 10, x pattern, m at level 100, k at level 200) : outcome_scope.
Local Open Scope outcome_scope.

(** Checked [int] arithmetic. *)
Definition int_add (a b : Z) : outcome Z :=
  if in_int (a + b) then Done (a + b) else Fault SignedOverflow.

Definition int_mul (a b : Z) : outcome Z :=
  if in_int (a * b) then Done (a * b) else Fault SignedOverflow.

(** [a / b] on [int]: truncates toward zero. *)
Definition int_div (a b : Z) : outcome Z :=
  if b =? 0 then Fault DivisionByZero
  else if in_int (Z.quot a b) then Done (Z.quot a b) else Fault SignedOverflow.

(** [a % b] where [a] is a [uint32_t] and [b] an [int]: by the usual
    arithmetic conversions [b] is converted to [unsigned int]. *)
Definition urem (a b : Z) : outcome Z :=
  let ub := to_uint32 b in
  if ub =? 0 then Fault DivisionByZero else Done (a mod ub).

(** Counted loop [for (int j = lo; j < hi; ++j) body]. *)
Fixpoint for_count {S : Type} (n : nat) (j : Z)
    (body : Z -> S -> outcome S) (s : S) : outcome S :=
  match n with
  | O => Done s
  | S n' => let* s' := body j s in for_count n' (j + 1) body s'
  end.

Definition for_range {S : Type} (lo hi : Z)
    (body : Z -> S -> outcome S) (s : S) : outcome S :=
  for_count (Z.to_nat (hi - lo)) lo body s.

(** ** Byte strings and their order *)

Definition byte_string : Type := list Z.

Definition is_byte (b : Z) : Prop := 0 <= b < 256.

(** [byte_string(n, 0)] *)
Definition zeros (n : nat) : byte_string := repeat 0 n.

(** [std::basic_string::compare]: lexicographic on the common prefix, the
    shorter string first. *)
Fixpoint bytes_compare (a b : byte_string) : comparison :=
  match a, b with
  | [], [] => Eq
  | [], _ :: _ => Lt
  | _ :: _, [] => Gt
  | x :: a', y :: b' =>
      match x ?= y with
      | Eq => bytes_compare a' b'
      | c => c
      end
  end.

Definition bytes_lt (a b : byte_string) : Prop := bytes_compare a b = Lt.

(** ** [std::map<byte_string, V>]

    The map is the list of its entries in the order [begin() .. end()]
    enumerates them: ascending keys. *)

Section OrderedMap.

Context {V : Type}.

Definition omap : Type := list (byte_string * V).

Definition keys (m : omap) : list byte_string := map fst m.

(** [m.find(k)] *)
Fixpoint map_find (k : byte_string) (m : omap) : option V :=
  match m with
  | [] => None
  | (k', v') :: m' =>
      match bytes_compare k k' with
      | Eq => Some v'
      | _ => map_find k m'
      end
  end.

(** [m[k] = v] *)
Fixpoint map_put (k : byte_string) (v : V) (m : omap) : omap :=
  match m with
  | [] => [(k, v)]
  | (k', v') :: m' =>
      match bytes_compare k k' with
      | Lt => (k, v) :: m
      | Eq => (k, v) :: m'
      | Gt => (k', v') :: map_put k v m'
      end
  end.

(** The value a reference obtained by [m[k]] starts from: the entry of
    [k], or a value-initialised [V] when [k] is new. *)
Definition map_at (dflt : V) (k : byte_string) (m : omap) : V :=
  match map_find k m with
  | Some v => v
  | None => dflt
  end.

Definition ascending (m : omap) : Prop := StronglySorted bytes_lt (keys m).

End OrderedMap.
Arguments omap V : clear implicits.

(** ** Vectors ([std::vector] and the bytes of a [byte_string]) *)

Section Vectors.

Context {A : Type}.

(** [v[i] = x] for [i] inside the vector (outside, the list is left
    as it is; every caller below checks the range first or writes at
    a constant index inside a vector of constant length). *)
Fixpoint set_nth (n : nat) (x : A) (l : list A) : list A :=
  match l, n with
  | [], _ => []
  | _ :: t, O => x :: t
  | h :: t, S n' => h :: set_nth n' x t
  end.

(** [v[i]] read through a subscript of type [int]. *)
Definition vec_get (l : list A) (i : Z) : outcome A :=
  if i <? 0 then Fault OutOfRange
  else match nth_error l (Z.to_nat i) with
       | Some x => Done x
       | None => Fault OutOfRange
       end.

(** [std::swap(v[i], v[k])] *)
Definition vec_swap (l : list A) (i k : Z) : outcome (list A) :=
  let* a := vec_get l i in
  let* b := vec_get l k in
  Done (set_nth (Z.to_nat k) a (set_nth (Z.to_nat i) b l)).

End Vectors.

(** Pure counted loop [for (int j = lo; ...; ++j) body], [n] iterations. *)
Fixpoint for_pure {S : Type} (n : nat) (j : Z) (body : Z -> S -> S) (s : S) : S :=
  match n with
  | O => s
  | S n' => for_pure n' (j + 1) body (body j s)
  end.

(** ** Update nodes *)

(** Modelled from the spec: category/mpt/update.hpp is not among the
    sources.  An Update node is "an entry of (key, value) that may own a
    nested ordered collection of child Update nodes"; the value is
    optional because the driver also builds nodes from a key and a child
    list alone.  An UpdateList enumerates its nodes from the head. *)
#[local] Set Warnings "-register-all".
Inductive Update : Type :=
| mkUpdate (key : byte_string) (value : option byte_string) (next : list Update).

Definition UpdateList : Type := list Update.

Definition key (u : Update) : byte_string := let 'mkUpdate k _ _ := u in k.
Definition value (u : Update) : option byte_string := let 'mkUpdate _ v _ := u in v.
Definition next (u : Update) : UpdateList := let 'mkUpdate _ _ n := u in n.

(** [make_update(key, value)] *)
Definition make_update (k v : byte_string) : Update := mkUpdate k (Some v) [].

(** [make_update(key, std::move(next))] *)
Definition make_update_next (k : byte_string) (n : UpdateList) : Update :=
  mkUpdate k None n.

(** [u.next = std::move(n)] *)
Definition set_next (u : Update) (n : UpdateList) : Update :=
  mkUpdate (key u) (value u) n.

(** [l.push_front(u)] *)
Definition push_front (u : Update) (l : UpdateList) : UpdateList := u :: l.

(** ** Strings *)

(** [std::to_string(int)] *)
Definition to_string (j : Z) : string := NilZero.string_of_int (Z.to_int j).

Definition bytes_of_string (s : string) : byte_string :=
  map (fun c => Z.of_N (N_of_ascii c)) (list_ascii_of_string s).

(** ** The store *)

(** Modelled from the spec: category/mpt/db.hpp is not among the sources.
    The driver consumes "get latest committed version, load a prior root,
    upsert a batch of updates at a version, return a new root".  A
    [Node::SharedPtr] may be null: [option].  A store that fails ends the
    process; the calls are total here. *)
Record Store : Type := {
  Db : Type;
  Node : Type;
  get_latest_version : Db -> Z;
  load_root_for_version : Db -> Z -> option Node;
  upsert : Db -> option Node -> UpdateList -> Z -> option Node * Db;
}.

(** ** Parameters of a run (command line) *)

Record params : Type := {
  nAccounts : Z;   (* -n *)
  nSlots : Z;      (* --slots *)
  mModify : Z;     (* -m *)
  kCommit : Z;     (* -k *)
}.

(** ** Workload generation *)

(** [struct AccountData] *)
Record AccountData : Type := {
  acc_value : byte_string;
  acc_slots : omap byte_string;
}.

(** A value-initialised [AccountData], as [batchData[addrHash]] inserts. *)
Definition AccountData_new : AccountData := {| acc_value := []; acc_slots := [] |}.

(** [monad::small_prng] (category/core/small_prng.hpp is not among the
    sources): the state of the generator, its constructor from a seed and
    its [operator()]. *)
Class Generator : Type := {
  prng : Type;
  prng_seed : Z -> prng;
  prng_next : prng -> Z * prng;
}.

(** [monad::keccak256] (category/core/keccak.hpp is not among the sources)
    on the bytes of its argument. *)
Class Hash : Type := {
  keccak256 : byte_string -> byte_string;
}.

Section Workload.

Context {G : Generator} {H : Hash}.

(** [r()]: a [uint32_t]. *)
Definition rand (g : prng) : Z * prng :=
  let (x, g') := prng_next g in (to_uint32 x, g').

Definition hash_string (s : string) : byte_string :=
  keccak256 (bytes_of_string s).

(** [for (int b = 0; b < n; ++b) v[b] = (uint8_t)(r() % 256);] *)
Definition fill_random (n : nat) (v : byte_string) (g : prng) : byte_string * prng :=
  for_pure n 0
    (fun b '(v, g) =>
       let (x, g') := rand g in
       (set_nth (Z.to_nat b) (to_uint8 (x mod 256)) v, g'))
    (v, g).

(** Lines 229-230: the value of a slot modified in phase 2. *)
Definition modified_value (g : prng) : byte_string * prng :=
  fill_random 32 (zeros 32) g.

(** Lines 149-150: the value of an account. *)
Definition account_value (g : prng) : byte_string * prng :=
  fill_random 40 (zeros 40) g.

(** Lines 155-162: the value of a slot created in phase 1. *)
Definition slot_value (g : prng) : byte_string * prng :=
  let sVal := zeros 32 in
  let (x, g1) := rand g in
  let dice := to_uint32 (x mod 100) in
  if dice <? 20 then (sVal, g1)
  else if dice <? 30 then (set_nth 31 1 sVal, g1)
  else fill_random 32 sVal g1.

Definition slot_key (accountIdx slotIdx : Z) : byte_string :=
  hash_string ("acc-" ++ to_string accountIdx ++ "-slot-" ++ to_string slotIdx).

Definition account_key (j : Z) : byte_string :=
  hash_string ("account-" ++ to_string j).

(** Body of the loop of lines 153-165 for account [j]; the state is the
    slots of the account, the generator and [totalSlotsCreated]. *)
Definition create_slot (j s : Z) (st : omap byte_string * prng * Z)
  : omap byte_string * prng * Z :=
  let '(slots, g, total) := st in
  let sKey := slot_key j s in
  let (sVal, g') := slot_value g in
  (map_put sKey sVal slots, g', total + 1).

(** What a batch of phase 1 works on: the generator, the memoized
    addresses, the map of the batch and the counter of slots. *)
Record batch1 : Type := {
  b1_gen : prng;
  b1_addrs : list byte_string;
  b1_data : omap AccountData;
  b1_total : Z;
}.

(** Body of the loop of lines 143-166. *)
Definition create_account (nSlots j : Z) (st : batch1) : outcome batch1 :=
  let addrHash := account_key j in
  let addrs :=
    if Z.of_nat (length (b1_addrs st)) <=? to_uint64 j
    then b1_addrs st ++ [addrHash] else b1_addrs st in
  let acc := map_at AccountData_new addrHash (b1_data st) in
  let (v, g1) := account_value (b1_gen st) in
  let (x, g2) := rand g1 in
  let* twice := int_mul nSlots 2 in
  let* m := urem x twice in
  let vSlots := to_int32 m in
  let '(slots, g3, total) :=
    for_pure (Z.to_nat vSlots) 0 (create_slot j) (acc_slots acc, g2, b1_total st) in
  Done {| b1_gen := g3;
          b1_addrs := addrs;
          b1_data := map_put addrHash {| acc_value := v; acc_slots := slots |}
                       (b1_data st);
          b1_total := total |}.

(** Lines 180-183 and 249-252: the slot nodes of one account. *)
Definition build_slot_updates (slots : omap byte_string) : UpdateList :=
  fold_left (fun l '(sKey, sVal) => push_front (make_update sKey sVal) l) slots [].

(** Lines 174-188. *)
Definition build_updates1 (batchData : omap AccountData) : UpdateList :=
  fold_left
    (fun l '(addr, acc) =>
       push_front
         (set_next (make_update addr (acc_value acc))
                   (build_slot_updates (acc_slots acc))) l)
    batchData [].

(** Lines 243-256. *)
Definition build_updates2 (batchModData : omap (omap byte_string)) : UpdateList :=
  fold_left
    (fun l '(addr, slots) =>
       push_front (make_update_next addr (build_slot_updates slots)) l)
    batchModData [].

(** Body of the loop of lines 225-234 for the account of index
    [accountIdx] and address [addrHash]. *)
Definition modify_slot (nSlots accountIdx : Z) (addrHash : byte_string)
    (st : omap (omap byte_string) * prng * Z)
  : outcome (omap (omap byte_string) * prng * Z) :=
  let '(batchModData, g, total) := st in
  let (x, g1) := rand g in
  let* m := urem x nSlots in
  let slotIdx := to_int32 m in
  let sKey := slot_key accountIdx slotIdx in
  let (sVal, g2) := modified_value g1 in
  let slots := map_at ([] : omap byte_string) addrHash batchModData in
  Done (map_put addrHash (map_put sKey sVal slots) batchModData, g2, total + 1).

(** Body of the loop of lines 221-235. *)
Definition modify_account (nSlots : Z) (indices : list Z) (addrs : list byte_string)
    (j : Z) (st : omap (omap byte_string) * prng * Z)
  : outcome (omap (omap byte_string) * prng * Z) :=
  let* accountIdx := vec_get indices j in
  let* addrHash := vec_get addrs accountIdx in
  for_range 0 100 (fun _ => modify_slot nSlots accountIdx addrHash) st.

(** Lines 208-213: [iota] and the shuffle, from [i] down to 1. *)
Fixpoint shuffle_from (i : nat) (st : list Z * prng) : outcome (list Z * prng) :=
  match i with
  | O => Done st
  | S i' =>
      let (indices, g) := st in
      let (x, g') := rand g in
      let* i1 := int_add (Z.of_nat i) 1 in
      let* k := urem x i1 in
      let* indices' := vec_swap indices (Z.of_nat i) k in
      shuffle_from i' (indices', g')
  end.

Definition iota (n : Z) : list Z := map Z.of_nat (seq 0 (Z.to_nat n)).

Definition shuffle (n : Z) (g : prng) : outcome (list Z * prng) :=
  shuffle_from (Z.to_nat (n - 1)) (iota n, g).

(** *** Batches *)

(** The state of [main] that the generation reads and writes: the
    generator [r], [addrs] and the two counters of slots. *)
Record workload : Type := {
  w_gen : prng;
  w_addrs : list byte_string;
  w_created : Z;
  w_modified : Z;
}.

(** Lines 141-166: the deduplicated data of the batch of phase 1 whose
    accounts are [i .. batchEnd - 1]. *)
Definition collect1 (p : params) (i batchEnd : Z) (w : workload) : outcome batch1 :=
  for_range i batchEnd (create_account (nSlots p))
    {| b1_gen := w_gen w; b1_addrs := w_addrs w;
       b1_data := []; b1_total := w_created w |}.

(** Lines 134-190: the batch of phase 1 whose first account is [i];
    the update list and the version handed to [upsert]. *)
Definition phase1_batch (p : params) (i : Z) (w : workload)
  : outcome (UpdateList * Z * workload) :=
  let* e := int_add i (kCommit p) in
  let batchEnd := Z.min e (nAccounts p) in
  let* b := collect1 p i batchEnd w in
  let batchUpdateList := build_updates1 (b1_data b) in
  let* q := int_div i (kCommit p) in
  let version := to_uint64 (to_uint64 q + 1) in
  Done (batchUpdateList, version,
        {| w_gen := b1_gen b; w_addrs := b1_addrs b;
           w_created := b1_total b; w_modified := w_modified w |}).

(** Lines 219-235: the deduplicated data of the batch of phase 2 that
    modifies the accounts at positions [i .. batchEnd - 1] of the shuffled
    indices. *)
Definition collect2 (p : params) (indices : list Z) (i batchEnd : Z) (w : workload)
  : outcome (omap (omap byte_string) * prng * Z) :=
  for_range i batchEnd (modify_account (nSlots p) indices (w_addrs w))
    ([], w_gen w, w_modified w).

(** Lines 216-258: the batch of phase 2 that starts at position [i] of
    the shuffled indices; [m] is [mModify] after line 203. *)
Definition phase2_batch (p : params) (m : Z) (indices : list Z) (i : Z) (w : workload)
  : outcome (UpdateList * Z * workload) :=
  let* e := int_add i (kCommit p) in
  let batchEnd := Z.min e m in
  let* (batchModData, g, total) := collect2 p indices i batchEnd w in
  let batchUpdateList := build_updates2 batchModData in
  let* q := int_div i (kCommit p) in
  let version := to_uint64 (to_uint64 (1000000 + to_uint64 q) + 1) in
  Done (batchUpdateList, version,
        {| w_gen := g; w_addrs := w_addrs w;
           w_created := w_created w; w_modified := total |}).

(** *** The commit loops *)

Inductive phase : Type := Creation | Modification.

Inductive status : Type :=
| Finished
| Aborted (f : fault)
| OutOfFuel.

Section Driver.

Variable S : Store.

(** One call of [db.upsert]: the call site (line 191 or line 259), the
    loop variable [i] there, and the three arguments. *)
Record commit : Type := {
  c_phase : phase;
  c_index : Z;
  c_root : option (Node S);
  c_updates : UpdateList;
  c_version : Z;
}.

Record driver : Type := {
  d_work : workload;
  d_root : option (Node S);
  d_db : Db S;
  d_log : list commit;   (* the calls of upsert so far, oldest first *)
}.

(** [root = db.upsert(std::move(root), std::move(batchUpdateList), version)] *)
Definition do_commit (ph : phase) (i : Z) (l : UpdateList) (version : Z)
    (w : workload) (d : driver) : driver :=
  let (root', db') := upsert S (d_db d) (d_root d) l version in
  {| d_work := w; d_root := root'; d_db := db';
     d_log := d_log d ++ [ {| c_phase := ph; c_index := i; c_root := d_root d;
                              c_updates := l; c_version := version |} ] |}.

(** [for (int i = ...; i < bound; i += kCommit)] around a batch. *)
Fixpoint commit_loop (ph : phase)
    (batch : Z -> workload -> outcome (UpdateList * Z * workload))
    (k bound : Z) (fuel : nat) (i : Z) (d : driver) : driver * status :=
  if i <? bound then
    match fuel with
    | O => (d, OutOfFuel)
    | Datatypes.S fuel' =>
        match batch i (d_work d) with
        | Fault f => (d, Aborted f)
        | Done (l, version, w) =>
            let d' := do_commit ph i l version w d in
            match int_add i k with
            | Fault f => (d', Aborted f)
            | Done i' => commit_loop ph batch k bound fuel' i' d'
            end
        end
    end
  else (d, Finished).

(** Lines 120-124. *)
Definition initial_root (db : Db S) : option (Node S) :=
  let latest_version := to_uint64 (get_latest_version S db) in
  if negb (latest_version =? 0) && negb (latest_version =? UINT64_MAX)
  then load_root_for_version S db latest_version
  else None.

(** Lines 118-261 of [main]: the seed, the initial root, phase 1, the
    shuffle and phase 2.  What [main] prints (the sizes of the disk, the
    durations and the throughput) does not act on this state and is left
    out. *)
Definition main (p : params) (db : Db S) (fuel : nat) : driver * status :=
  let r := prng_seed 42 in
  let d0 := {| d_work := {| w_gen := r; w_addrs := [];
                            w_created := 0; w_modified := 0 |};
               d_root := initial_root db; d_db := db; d_log := [] |} in
  (* addrs.reserve(nAccounts) *)
  if nAccounts p <? 0 then (d0, Aborted LengthError)
  else
    match commit_loop Creation (phase1_batch p) (kCommit p) (nAccounts p) fuel 0 d0 with
    | (d1, Finished) =>
        let m := Z.min (mModify p) (nAccounts p) in
        match shuffle (nAccounts p) (w_gen (d_work d1)) with
        | Fault f => (d1, Aborted f)
        | Done (indices, g) =>
            let w := d_work d1 in
            let d2 := {| d_work := {| w_gen := g; w_addrs := w_addrs w;
                                      w_created := w_created w;
                                      w_modified := w_modified w |};
                         d_root := d_root d1; d_db := d_db d1; d_log := d_log d1 |} in
            commit_loop Modification (phase2_batch p m indices) (kCommit p) m fuel 0 d2
        end
    | stopped => stopped
    end.

End Driver.

End Workload.

Arguments c_phase {S} c.
Arguments c_index {S} c.
Arguments c_root {S} c.
Arguments c_updates {S} c.
Arguments c_version {S} c.
Arguments d_work {G S} d.
Arguments d_root {G S} d.
Arguments d_db {G S} d.
Arguments d_log {G S} d.

(** ** Concrete collaborators

    Instances of the three collaborators, to evaluate the driver on
    concrete runs.  Every theorem about the driver holds for all
    instances; only closed examples use these. *)

Module Reference.

(** *** Keccak-256: the permutation on 25 lanes of 64 bits *)

Definition mask64 : Z := 2 ^ 64 - 1.

Definition rotl64 (x n : Z) : Z :=
  Z.lor (Z.land (Z.shiftl x n) mask64) (Z.shiftr x (64 - n)).

Definition lane (st : list Z) (i : nat) : Z := nth i st 0.

Definition round_constants : list Z :=
  [ 0x0000000000000001; 0x0000000000008082; 0x800000000000808A;
    0x8000000080008000; 0x000000000000808B; 0x0000000080000001;
    0x8000000080008081; 0x8000000000008009; 0x000000000000008A;
    0x0000000000000088; 0x0000000080008009; 0x000000008000000A;
    0x000000008000808B; 0x800000000000008B; 0x8000000000008089;
    0x8000000000008003; 0x8000000000008002; 0x8000000000000080;
    0x000000000000800A; 0x800000008000000A; 0x8000000080008081;
    0x8000000000008080; 0x0000000080000001; 0x8000000080008008 ].

Definition rotation_offsets : list Z :=
  [1; 3; 6; 10; 15; 21; 28; 36; 45; 55; 2; 14;
   27; 41; 56; 8; 25; 43; 62; 18; 39; 61; 20; 44].

Definition pi_lanes : list nat :=
  [10; 7; 11; 17; 18; 3; 5; 16; 8; 21; 24; 4;
   15; 23; 19; 13; 12; 2; 20; 14; 22; 9; 6; 1]%nat.

Definition theta (st : list Z) : list Z :=
  let bc :=
    map (fun i => Z.lxor (lane st i)
                   (Z.lxor (lane st (i + 5))
                      (Z.lxor (lane st (i + 10))
                         (Z.lxor (lane st (i + 15)) (lane st (i + 20))))))
        (seq 0 5) in
  let t := fun i => Z.lxor (nth ((i + 4) mod 5) bc 0)
                           (rotl64 (nth ((i + 1) mod 5) bc 0) 1) in
  map (fun j => Z.lxor (lane st j) (t (j mod 5)%nat)) (seq 0 25).

Definition rho_pi (st : list Z) : list Z :=
  let sources := (1 :: pi_lanes)%nat in
  fold_left
    (fun acc i =>
       set_nth (nth i pi_lanes O)
         (rotl64 (lane st (nth i sources O)) (nth i rotation_offsets 0)) acc)
    (seq 0 24) st.

Definition chi (st : list Z) : list Z :=
  map (fun j =>
         let row := (5 * (j / 5))%nat in
         let i := (j mod 5)%nat in
         Z.lxor (lane st j)
           (Z.land (Z.lnot (lane st (row + (i + 1) mod 5)))
                   (lane st (row + (i + 2) mod 5))))
      (seq 0 25).

Definition iota_step (r : nat) (st : list Z) : list Z :=
  set_nth 0 (Z.lxor (lane st 0) (nth r round_constants 0)) st.

Definition keccak_round (st : list Z) (r : nat) : list Z :=
  iota_step r (chi (rho_pi (theta st))).

Definition keccak_f (st : list Z) : list Z :=
  fold_left keccak_round (seq 0 24) st.

(** Little-endian lanes. *)
Fixpoint lane_of_bytes (bs : list Z) : Z :=
  match bs with
  | [] => 0
  | b :: bs' => b + 256 * lane_of_bytes bs'
  end.

Fixpoint bytes_of_lane (n : nat) (x : Z) : list Z :=
  match n with
  | O => []
  | S n' => x mod 256 :: bytes_of_lane n' (x / 256)
  end.

Definition rate : nat := 136.

Definition absorb_block (st : list Z) (block : list Z) : list Z :=
  keccak_f
    (map (fun j => Z.lxor (lane st j)
                     (lane_of_bytes (firstn 8 (skipn (8 * j) block))))
         (seq 0 25)).

(** Multi-rate padding of Keccak (0x01 .. 0x80) of the last block. *)
Definition pad (tail : list Z) : list Z :=
  let padded := tail ++ [1] ++ repeat 0 (rate - 1 - length tail) in
  set_nth (rate - 1) (Z.lor (nth (rate - 1) padded 0) 0x80) padded.

Fixpoint absorb (fuel : nat) (st : list Z) (msg : list Z) : list Z :=
  match fuel with
  | O => st
  | S fuel' =>
      if (length msg <? rate)%nat then absorb_block st (pad msg)
      else absorb fuel' (absorb_block st (firstn rate msg)) (skipn rate msg)
  end.

(** Modelled from the spec: category/core/keccak.hpp is not among the
    sources; addresses and slot keys are 32-byte hashes of canonical
    strings.  Keccak-256 as published: a rate of 136 bytes, the padding
    0x01 .. 0x80, the first 32 bytes of the state as the digest. *)
Definition keccak256_bytes (msg : byte_string) : byte_string :=
  let st := absorb (S (length msg)) (repeat 0 25) msg in
  flat_map (fun j => bytes_of_lane 8 (lane st j)) (seq 0 4).

#[export] Instance keccak_hash : Hash := {| keccak256 := keccak256_bytes |}.

(** *** The small generator *)

Definition rot32 (x k : Z) : Z :=
  Z.lor (to_uint32 (Z.shiftl x k)) (Z.shiftr x (32 - k)).

(** Modelled from the spec: category/core/small_prng.hpp is not among the
    sources; the spec asks for a seeded generator that produces a stream of
    pseudo-random 32-bit values.  This is Jenkins' small fast generator on
    four 32-bit words, warmed up by twenty draws. *)
Definition jsf_next (s : Z * Z * Z * Z) : Z * (Z * Z * Z * Z) :=
  let '(a, b, c, d) := s in
  let e := to_uint32 (a - rot32 b 27) in
  let a := Z.lxor b (rot32 c 17) in
  let b := to_uint32 (c + d) in
  let c := to_uint32 (d + e) in
  let d := to_uint32 (e + a) in
  (d, (a, b, c, d)).

Definition jsf_seed (seed : Z) : Z * Z * Z * Z :=
  let s := to_uint32 seed in
  fold_left (fun st _ => snd (jsf_next st)) (seq 0 20) (0xf1ea5eed, s, s, s).

#[export] Instance jsf : Generator :=
  {| prng := Z * Z * Z * Z; prng_seed := jsf_seed; prng_next := jsf_next |}.

(** *** A store that records its commits *)

(** The database is the list of its commits, oldest first, and the root
    of a version is the version itself. *)
Definition history : Type := list (Z * UpdateList).

Definition committed (db : history) (v : Z) : Prop := In v (map fst db).

Definition latest (db : history) : Z :=
  match rev db with
  | [] => UINT64_MAX
  | (v, _) :: _ => v
  end.

Definition load (db : history) (v : Z) : option Z :=
  if existsb (fun c => fst c =? v) db then Some v else None.

(** Modelled from the spec: the store is an external collaborator;
    "get_latest_version() returns the most recent committed version, or a
    sentinel meaning none", "load_root_for_version(version) returns a Root
    for a previously committed version", "upsert(root_or_absent,
    updateList, version) consumes both inputs, returns the new Root". *)
Definition record_store : Store :=
  {| Db := history;
     Node := Z;
     get_latest_version := latest;
     load_root_for_version := load;
     upsert := fun db _ l v => (Some v, db ++ [(v, l)]) |}.

(** A store that keeps nothing: no version, no root. *)
Definition null_store : Store :=
  {| Db := unit;
     Node := unit;
     get_latest_version := fun _ => UINT64_MAX;
     load_root_for_version := fun _ _ => None;
     upsert := fun db _ _ _ => (None, db) |}.

End Reference.

(** ** Disk usage ([get_dir_size]) *)

(** What [std::filesystem] shows of the disk: a tree of regular files,
    directories and other nodes (sockets, devices, dangling links). *)
Inductive fs_node : Type :=
| RegularFile (size : Z)
| Directory (entries : list (string * fs_node))
| OtherNode.

Definition path : Type := list string.

Fixpoint fs_lookup (name : string) (entries : list (string * fs_node)) : option fs_node :=
  match entries with
  | [] => None
  | (n, node) :: rest => if String.eqb n name then Some node else fs_lookup name rest
  end.

(** The node a path names, from the root of the tree. *)
Fixpoint resolve (root : fs_node) (p : path) : option fs_node :=
  match p with
  | [] => Some root
  | name :: p' =>
      match root with
      | Directory entries =>
          match fs_lookup name entries with
          | Some node => resolve node p'
          | None => None
          end
      | _ => None
      end
  end.

(** [std::filesystem::exists] *)
Definition fs_exists (root : fs_node) (p : path) : bool :=
  match resolve root p with
  | Some _ => true
  | None => false
  end.

(** [std::filesystem::is_directory] *)
Definition is_directory (root : fs_node) (p : path) : bool :=
  match resolve root p with
  | Some (Directory _) => true
  | _ => false
  end.

Definition node_is_regular_file (n : fs_node) : bool :=
  match n with
  | RegularFile _ => true
  | _ => false
  end.

(** [std::filesystem::is_regular_file] *)
Definition is_regular_file (root : fs_node) (p : path) : bool :=
  match resolve root p with
  | Some n => node_is_regular_file n
  | None => false
  end.

(** [file_size] of a node: a [uintmax_t]; an error on anything but a
    regular file. *)
Definition node_file_size (n : fs_node) : outcome Z :=
  match n with
  | RegularFile size => Done (to_uint64 size)
  | _ => Fault FilesystemError
  end.

(** [std::filesystem::file_size] *)
Definition file_size (root : fs_node) (p : path) : outcome Z :=
  match resolve root p with
  | Some n => node_file_size n
  | None => Fault FilesystemError
  end.

(** The entries [recursive_directory_iterator] enumerates below a node:
    each entry of a directory, followed by what is below it. *)
Fixpoint descendants (n : fs_node) : list fs_node :=
  match n with
  | Directory entries =>
      (fix walk (es : list (string * fs_node)) : list fs_node :=
         match es with
         | [] => []
         | (_, child) :: es' => child :: descendants child ++ walk es'
         end) entries
  | _ => []
  end.

(** [std::filesystem::recursive_directory_iterator(path)] *)
Definition recursive_directory_iterator (root : fs_node) (p : path)
  : outcome (list fs_node) :=
  match resolve root p with
  | Some (Directory entries) => Done (descendants (Directory entries))
  | _ => Fault FilesystemError
  end.

(** Lines 51-55: the loop over the entries. *)
Definition add_entry (acc : outcome Z) (entry : fs_node) : outcome Z :=
  let* size := acc in
  if node_is_regular_file entry
  then let* sz := node_file_size entry in Done (add64 size sz)
  else Done size.

Definition get_dir_size (root : fs_node) (p : path) : outcome Z :=
  let size := 0 in
  if fs_exists root p then
    if is_directory root p then
      let* entries := recursive_directory_iterator root p in
      fold_left add_entry entries (Done size)
    else if is_regular_file root p then file_size root p
    else Done size
  else Done size.

(** The sizes of the regular files among some entries, and their sum. *)
Definition regular_sizes (entries : list fs_node) : list Z :=
  flat_map (fun n => match n with
                     | RegularFile size => [to_uint64 size]
                     | _ => []
                     end) entries.

Definition sum_sizes (sizes : list Z) : Z := fold_right Z.add 0 sizes.

(** ** The contract of the deduplication

    The raw writes of a batch in generation order, and what a
    latest-write-wins reading of them gives.  These definitions follow
    the specification; the maps of [collect1] and [collect2] are compared
    with them below. *)

Inductive write : Type :=
| AccountWrite (addr value : byte_string)
| SlotWrite (addr sKey sVal : byte_string).

Definition bytes_eqb (a b : byte_string) : bool :=
  match bytes_compare a b with
  | Eq => true
  | _ => false
  end.

(** The value of the last write to the account [a], if any. *)
Fixpoint last_account_write (a : byte_string) (ws : list write) : option byte_string :=
  match ws with
  | [] => None
  | w :: ws' =>
      match last_account_write a ws' with
      | Some v => Some v
      | None =>
          match w with
          | AccountWrite a' v => if bytes_eqb a' a then Some v else None
          | SlotWrite _ _ _ => None
          end
      end
  end.

(** The value of the last write to the slot [k] of the account [a], if any. *)
Fixpoint last_slot_write (a k : byte_string) (ws : list write) : option byte_string :=
  match ws with
  | [] => None
  | w :: ws' =>
      match last_slot_write a k ws' with
      | Some v => Some v
      | None =>
          match w with
          | SlotWrite a' k' v => if bytes_eqb a' a && bytes_eqb k' k then Some v else None
          | AccountWrite _ _ => None
          end
      end
  end.

(** The value of an account and of a slot in the map of a batch. *)
Definition account_of (a : byte_string) (data : omap AccountData) : option byte_string :=
  option_map acc_value (map_find a data).

Definition slot_of1 (a k : byte_string) (data : omap AccountData) : option byte_string :=
  match map_find a data with
  | Some acc => map_find k (acc_slots acc)
  | None => None
  end.

Definition slot_of2 (a k : byte_string) (data : omap (omap byte_string))
  : option byte_string :=
  match map_find a data with
  | Some slots => map_find k slots
  | None => None
  end.

Section Streams.

Context {G : Generator} {H : Hash}.

(** [n] successive results of [r()]. *)
Fixpoint draws (n : nat) (g : prng) : list Z * prng :=
  match n with
  | O => ([], g)
  | S n' =>
      let (x, g1) := rand g in
      let (xs, g2) := draws n' g1 in
      (x :: xs, g2)
  end.

(** The slot writes of account [j] of phase 1, from slot [s] on. *)
Fixpoint slot_writes1 (n : nat) (j s : Z) (g : prng) : list write * prng :=
  match n with
  | O => ([], g)
  | S n' =>
      let (v, g1) := slot_value g in
      let (ws, g2) := slot_writes1 n' j (s + 1) g1 in
      (SlotWrite (account_key j) (slot_key j s) v :: ws, g2)
  end.

(** The writes of account [j] of phase 1: its value, then its slots. *)
Definition account_writes1 (nSlots j : Z) (g : prng) : outcome (list write * prng) :=
  let (v, g1) := account_value g in
  let (x, g2) := rand g1 in
  let* twice := int_mul nSlots 2 in
  let* m := urem x twice in
  let (ws, g3) := slot_writes1 (Z.to_nat (to_int32 m)) j 0 g2 in
  Done (AccountWrite (account_key j) v :: ws, g3).

(** The writes of the [n] accounts from [j] on. *)
Fixpoint batch_writes1 (nSlots : Z) (n : nat) (j : Z) (g : prng)
  : outcome (list write * prng) :=
  match n with
  | O => Done ([], g)
  | S n' =>
      let* (ws, g1) := account_writes1 nSlots j g in
      let* (ws', g2) := batch_writes1 nSlots n' (j + 1) g1 in
      Done (ws ++ ws', g2)
  end.

(** The [n] slot writes of phase 2 to the account of index [accountIdx]. *)
Fixpoint slot_writes2 (nSlots accountIdx : Z) (addr : byte_string) (n : nat) (g : prng)
  : outcome (list write * prng) :=
  match n with
  | O => Done ([], g)
  | S n' =>
      let (x, g1) := rand g in
      let* m := urem x nSlots in
      let (v, g2) := modified_value g1 in
      let* (ws, g3) := slot_writes2 nSlots accountIdx addr n' g2 in
      Done (SlotWrite addr (slot_key accountIdx (to_int32 m)) v :: ws, g3)
  end.

Definition account_writes2 (nSlots : Z) (indices : list Z) (addrs : list byte_string)
    (j : Z) (g : prng) : outcome (list write * prng) :=
  let* accountIdx := vec_get indices j in
  let* addr := vec_get addrs accountIdx in
  slot_writes2 nSlots accountIdx addr 100 g.

Fixpoint batch_writes2 (nSlots : Z) (indices : list Z) (addrs : list byte_string)
    (n : nat) (j : Z) (g : prng) : outcome (list write * prng) :=
  match n with
  | O => Done ([], g)
  | S n' =>
      let* (ws, g1) := account_writes2 nSlots indices addrs j g in
      let* (ws', g2) := batch_writes2 nSlots indices addrs n' (j + 1) g1 in
      Done (ws ++ ws', g2)
  end.

End Streams.

(** The part of a commit that does not depend on the store. *)
Definition payload {S : Store} (c : commit S) : phase * Z * UpdateList * Z :=
  (c_phase c, c_index c, c_updates c, c_version c).

(** ** The schedule of versions *)

Definition base_version (ph : phase) : Z :=
  match ph with
  | Creation => 0
  | Modification => 1000000
  end.

(** The call site, the loop variable and the version of a commit. *)
Definition stamp {S : Store} (c : commit S) : phase * Z * Z :=
  (c_phase c, c_index c, c_version c).

(** The stamps of the first [n] batches of a phase that steps by [k]. *)
Definition schedule (ph : phase) (k : Z) (n : nat) : list (phase * Z * Z) :=
  map (fun t => (ph, Z.of_nat t * k, base_version ph + Z.of_nat t + 1)) (seq 0 n).

Definition is_creation {S : Store} (c : commit S) : bool :=
  match c_phase c with
  | Creation => true
  | Modification => false
  end.

Definition stamp_is_creation (s : phase * Z * Z) : bool :=
  match fst (fst s) with
  | Creation => true
  | Modification => false
  end.

(** ** Well-formed maps and the shape of the update lists *)

(** The maps of a batch enumerate accounts and slots by ascending key. *)
Definition well_formed1 (data : omap AccountData) : Prop :=
  ascending data /\ Forall (fun e => ascending (acc_slots (snd e))) data.

Definition well_formed2 (data : omap (omap byte_string)) : Prop :=
  ascending data /\ Forall (fun e => ascending (snd e)) data.

(** The node of a slot, and the nodes of an account in each phase, with
    the slot nodes in the order the update list enumerates them. *)
Definition slot_node (e : byte_string * byte_string) : Update :=
  mkUpdate (fst e) (Some (snd e)) [].

Definition account_node1 (e : byte_string * AccountData) : Update :=
  mkUpdate (fst e) (Some (acc_value (snd e)))
    (rev (map slot_node (acc_slots (snd e)))).

Definition account_node2 (e : byte_string * omap byte_string) : Update :=
  mkUpdate (fst e) None (rev (map slot_node (snd e))).

(** Strictly descending keys: the reverse of the canonical order. *)
Definition descending (l : UpdateList) : Prop :=
  StronglySorted bytes_lt (rev (map key l)).

(** ** Startup *)

(** The root a store hands back at startup, by lines 120-124. *)
Definition resumed_root (S : Store) (db : Db S) : option (Node S) :=
  let v := to_uint64 (get_latest_version S db) in
  if (v =? 0) || (v =? UINT64_MAX) then None else load_root_for_version S db v.

(** The first call of upsert, or the driver if there was none, holds [r]. *)
Definition starts_from {G : Generator} {S : Store}
    (r : option (Node S)) (d : driver S) : Prop :=
  match d_log d with
  | [] => d_root d = r
  | c :: _ => c_root c = r
  end.

(** [(uint8_t)(x % 256)] *)
Definition byte_of (x : Z) : Z := to_uint8 (x mod 256).

(** The three values of a slot of phase 1, by the dice. *)
Definition slot_variant {G : Generator} (dice : Z) (g : prng) : byte_string * prng :=
  if dice <? 20 then (zeros 32, g)
  else if dice <? 30 then (zeros 31 ++ [1], g)
  else (map byte_of (fst (draws 32 g)), snd (draws 32 g)).

(** What a later part of the writes does not decide, the earlier part
    decides. *)
Definition or_else {A : Type} (later earlier : option A) : option A :=
  match later with
  | Some v => Some v
  | None => earlier
  end.

(** Where the raw writes of each phase come from: the keys are hashes of
    the canonical strings and every value is drawn from the generator at
    some state of its stream. *)
Definition generated1 {G : Generator} {H : Hash} (w : write) : Prop :=
  match w with
  | AccountWrite a v =>
      exists j g, a = account_key j /\ v = fst (account_value g)
  | SlotWrite a k v =>
      exists j s g, a = account_key j /\ k = slot_key j s /\ v = fst (slot_value g)
  end.

Definition generated2 {G : Generator} {H : Hash}
    (addrs : list byte_string) (w : write) : Prop :=
  match w with
  | AccountWrite _ _ => False
  | SlotWrite a k v =>
      exists idx s g, In a addrs /\ k = slot_key idx s /\ v = fst (modified_value g)
  end.

(** ** A small run

    One account, one slot on average, one modification, one account per
    commit, on the concrete collaborators. *)
Definition sample_params : params :=
  {| nAccounts := 1; nSlots := 1; mModify := 1; kCommit := 1 |}.

Definition sample_log : list (commit Reference.record_store) :=
  Eval vm_compute in
    d_log (fst (@main Reference.jsf Reference.keccak_hash
                  Reference.record_store sample_params [] 5)).

(** The first batch of each phase of a run of two accounts with two slots
    on average: before any account is created, and once the two addresses
    are memoized. *)
Definition two_accounts : params :=
  {| nAccounts := 2; nSlots := 2; mModify := 1; kCommit := 2 |}.

Definition fresh : @workload Reference.jsf :=
  {| w_gen := @prng_seed Reference.jsf 42; w_addrs := [];
     w_created := 0; w_modified := 0 |}.

Definition memoized : @workload Reference.jsf :=
  {| w_gen := @prng_seed Reference.jsf 42;
     w_addrs := [@account_key Reference.keccak_hash 0;
                 @account_key Reference.keccak_hash 1];
     w_created := 0; w_modified := 0 |}.

(** A directory with two files, a subdirectory with one file and a
    socket. *)
Definition sample_tree : fs_node :=
  Directory
    [ ("db"%string,
       Directory
         [ ("chunk0"%string, RegularFile 4096);
           ("chunk1"%string, RegularFile 8192);
           ("wal"%string, Directory [ ("log"%string, RegularFile 100) ]);
           ("lock"%string, OtherNode) ]) ].

(** Whether a computation returned. *)
Definition is_done {A : Type} (m : outcome A) : bool :=
  match m with
  | Done _ => true
  | Fault _ => false
  end.

(** ** Agreement of two runs and valid parameters *)

(** Two drivers agree when they hold the same generation state and have
    handed the same update lists and versions to their stores. *)
Definition agree {G : Generator} {S1 S2 : Store}
    (d1 : driver S1) (d2 : driver S2) : Prop :=
  d_work d1 = d_work d2 /\ map payload (d_log d1) = map payload (d_log d2).

(** Parameters for which no arithmetic of the driver is undefined. *)
Definition valid (p : params) : Prop :=
  0 < kCommit p
  /\ 0 <= nAccounts p
  /\ nAccounts p + kCommit p <= INT_MAX
  /\ 0 < nSlots p <= 2 ^ 30 - 1.

(** * Properties *)

(** ** Outcomes, byte strings, maps and vectors *)

Lemma bind_Done {A B} (m : outcome A) (k : A -> outcome B) (b : B) :
  bind m k = Done b -> exists a, m = Done a /\ k a = Done b.
Proof. destruct m as [a|f]; simpl; intros H; [eauto | discriminate]. Qed.

Lemma bind_Fault {A B} (m : outcome A) (k : A -> outcome B) (f : fault) :
  bind m k = Fault f ->
  m = Fault f \/ exists a, m = Done a /\ k a = Fault f.
Proof. destruct m as [a|f']; simpl; intros H; [eauto | left; congruence]. Qed.

Lemma bytes_compare_refl a : bytes_compare a a = Eq.
Proof. induction a as [|x a IH]; simpl; [reflexivity|]. now rewrite Z.compare_refl. Qed.

Lemma bytes_compare_eq a b : bytes_compare a b = Eq -> a = b.
Proof.
  revert b; induction a as [|x a IH]; intros [|y b]; simpl; try discriminate; auto.
  destruct (x ?= y) eqn:E; try discriminate.
  apply Z.compare_eq in E. intros H. f_equal; auto.
Qed.

Lemma bytes_compare_antisym a b : bytes_compare b a = CompOpp (bytes_compare a b).
Proof.
  revert b; induction a as [|x a IH]; intros [|y b]; simpl; auto.
  rewrite (Z.compare_antisym x y).
  destruct (x ?= y); simpl; auto.
Qed.

Lemma bytes_lt_irrefl a : ~ bytes_lt a a.
Proof. unfold bytes_lt. rewrite bytes_compare_refl. discriminate. Qed.

Lemma bytes_lt_trans a b c : bytes_lt a b -> bytes_lt b c -> bytes_lt a c.
Proof.
  unfold bytes_lt. revert b c.
  induction a as [|x a IH]; intros [|y b] [|z c]; simpl; try discriminate; auto.
  destruct (x ?= y) eqn:Exy; try discriminate;
    destruct (y ?= z) eqn:Eyz; try discriminate; intros Hab Hbc.
  - apply Z.compare_eq in Exy, Eyz. subst. rewrite Z.compare_refl. eauto.
  - apply Z.compare_eq in Exy. subst. now rewrite Eyz.
  - apply Z.compare_eq in Eyz. subst. now rewrite Exy.
  - rewrite Z.compare_lt_iff in Exy, Eyz.
    assert (H : (x ?= z) = Lt) by (apply Z.compare_lt_iff; lia).
    now rewrite H.
Qed.

Lemma bytes_lt_neq a b : bytes_lt a b -> a <> b.
Proof. intros H ->. exact (bytes_lt_irrefl _ H). Qed.

Section OrderedMapFacts.

Context {V : Type}.
Implicit Types (m : omap V) (v : V).

Lemma ascending_nil : ascending (@nil (byte_string * V)).
Proof. constructor. Qed.

Lemma keys_map_put_In k v m x :
  In x (keys (map_put k v m)) -> x = k \/ In x (keys m).
Proof.
  induction m as [|[k' v'] m IH]; simpl.
  - intros [H|[]]; auto.
  - destruct (bytes_compare k k') eqn:E; simpl.
    + apply bytes_compare_eq in E. subst. intros [H|H]; auto.
    + intros [H|[H|H]]; auto.
    + intros [H|H]; auto. destruct (IH H); auto.
Qed.

Lemma map_put_ascending k v m : ascending m -> ascending (map_put k v m).
Proof.
  unfold ascending.
  induction m as [|[k' v'] m IH]; simpl; intros Hs.
  - repeat constructor.
  - apply StronglySorted_inv in Hs as [Hs Hall].
    destruct (bytes_compare k k') eqn:E; simpl.
    + apply bytes_compare_eq in E. subst. now constructor.
    + constructor; [now constructor|].
      constructor; [exact E|].
      rewrite Forall_forall in *. intros x Hx.
      eapply bytes_lt_trans; [exact E | auto].
    + constructor; [auto|].
      rewrite Forall_forall in *. intros x Hx.
      apply keys_map_put_In in Hx as [->|Hx]; [|auto].
      unfold bytes_lt. rewrite bytes_compare_antisym, E. reflexivity.
Qed.

Lemma ascending_NoDup m : ascending m -> NoDup (keys m).
Proof.
  unfold ascending. induction 1 as [|k ks Hs IH Hall]; constructor; auto.
  intros Hin. rewrite Forall_forall in Hall.
  exact (bytes_lt_irrefl _ (Hall _ Hin)).
Qed.

(** Latest write wins. *)
Lemma map_find_put_eq k v m : map_find k (map_put k v m) = Some v.
Proof.
  induction m as [|[k' v'] m IH]; simpl.
  - now rewrite bytes_compare_refl.
  - destruct (bytes_compare k k') eqn:E; simpl;
      rewrite ?bytes_compare_refl, ?E; auto.
Qed.

Lemma map_find_put_ne k k' v m :
  k <> k' -> map_find k' (map_put k v m) = map_find k' m.
Proof.
  intros Hne. induction m as [|[k0 v0] m IH]; simpl.
  - destruct (bytes_compare k' k) eqn:E; auto.
    apply bytes_compare_eq in E. congruence.
  - destruct (bytes_compare k k0) eqn:E; simpl.
    + apply bytes_compare_eq in E. subst k0.
      destruct (bytes_compare k' k) eqn:E'; auto.
      apply bytes_compare_eq in E'. congruence.
    + destruct (bytes_compare k' k) eqn:E'; auto.
      apply bytes_compare_eq in E'. congruence.
    + now rewrite IH.
Qed.

Lemma map_find_In k v m : map_find k m = Some v -> In (k, v) m.
Proof.
  induction m as [|[k' v'] m IH]; simpl; [discriminate|].
  destruct (bytes_compare k k') eqn:E; auto.
  apply bytes_compare_eq in E. subst. intros [= ->]. auto.
Qed.

Lemma In_map_find k v m : ascending m -> In (k, v) m -> map_find k m = Some v.
Proof.
  unfold ascending.
  induction m as [|[k' v'] m IH]; simpl; [tauto|].
  intros Hs. apply StronglySorted_inv in Hs as [Hs Hall].
  intros [[= -> ->]|Hin].
  - now rewrite bytes_compare_refl.
  - rewrite Forall_forall in Hall.
    assert (Hlt : bytes_lt k' k) by (apply Hall, in_map_iff; exists (k, v); auto).
    assert (E : bytes_compare k k' = Gt)
      by (rewrite bytes_compare_antisym, Hlt; reflexivity).
    rewrite E. auto.
Qed.

End OrderedMapFacts.

Section VectorFacts.

Context {A : Type}.

Lemma set_nth_length n (x : A) l : length (set_nth n x l) = length l.
Proof. revert n; induction l as [|h t IH]; intros [|n]; simpl; auto. Qed.

Lemma set_nth_Forall (P : A -> Prop) n x l :
  P x -> Forall P l -> Forall P (set_nth n x l).
Proof.
  intros Hx. revert n; induction l as [|h t IH]; intros [|n] Hl; simpl; auto;
    inversion Hl; subst; constructor; auto.
Qed.

Lemma vec_get_Done (l : list A) i x :
  vec_get l i = Done x -> 0 <= i < Z.of_nat (length l) /\ In x l.
Proof.
  unfold vec_get. destruct (i <? 0) eqn:E; [discriminate|].
  apply Z.ltb_ge in E.
  destruct (nth_error l (Z.to_nat i)) eqn:N; [|discriminate].
  intros [= ->]. split.
  - assert (Z.to_nat i < length l)%nat by (apply nth_error_Some; congruence). lia.
  - eapply nth_error_In; eauto.
Qed.

Lemma vec_get_in_range (l : list A) i :
  0 <= i < Z.of_nat (length l) -> exists x, vec_get l i = Done x.
Proof.
  intros [H0 H1]. unfold vec_get.
  destruct (i <? 0) eqn:E; [apply Z.ltb_lt in E; lia|].
  destruct (nth_error l (Z.to_nat i)) eqn:N; [eauto|].
  apply nth_error_None in N. lia.
Qed.

End VectorFacts.

(** ** Disk usage *)

Lemma to_uint64_range z : 0 <= to_uint64 z < 2 ^ 64.
Proof. unfold to_uint64. apply Z.mod_pos_bound. lia. Qed.

Lemma to_uint64_small z : 0 <= z < 2 ^ 64 -> to_uint64 z = z.
Proof. intros H. unfold to_uint64. now apply Z.mod_small. Qed.

Lemma to_uint64_add_l a b : to_uint64 (to_uint64 a + b) = to_uint64 (a + b).
Proof. unfold to_uint64. now rewrite Zplus_mod_idemp_l. Qed.

Lemma walk_sizes entries :
  forall size, 0 <= size < 2 ^ 64 ->
    fold_left add_entry entries (Done size)
    = Done (to_uint64 (size + sum_sizes (regular_sizes entries))).
Proof.
  induction entries as [|n entries IH]; intros size Hsize; simpl.
  - rewrite Z.add_0_r. now rewrite to_uint64_small.
  - destruct n as [sz| |]; simpl.
    + unfold add64. rewrite IH by apply to_uint64_range.
      f_equal. rewrite to_uint64_add_l. f_equal. lia.
    + now rewrite IH.
    + now rewrite IH.
Qed.

Lemma sum_sizes_nonneg entries : 0 <= sum_sizes (regular_sizes entries).
Proof.
  induction entries as [|n entries IH]; simpl; [lia|].
  destruct n as [sz| |]; simpl; auto.
  pose proof (to_uint64_range sz). unfold sum_sizes in *. lia.
Qed.

(** C9: [get_dir_size] never throws on a path that does not exist and
    returns 0 for it; for a directory it returns the sum, as a uint64_t, of
    the sizes of the regular files that the recursive walk reaches, which
    is the sum itself when it is below 2^64; for a regular file it returns
    the size of the file. *)
Theorem get_dir_size_spec (root : fs_node) (p : path) :
  get_dir_size root p =
  match resolve root p with
  | None => Done 0
  | Some (Directory entries) =>
      Done (to_uint64 (sum_sizes (regular_sizes (descendants (Directory entries)))))
  | Some (RegularFile size) => Done (to_uint64 size)
  | Some OtherNode => Done 0
  end
  /\ (forall entries,
        resolve root p = Some (Directory entries) ->
        sum_sizes (regular_sizes (descendants (Directory entries))) < 2 ^ 64 ->
        get_dir_size root p
        = Done (sum_sizes (regular_sizes (descendants (Directory entries))))).
Proof.
  assert (E : get_dir_size root p =
              match resolve root p with
              | None => Done 0
              | Some (Directory entries) =>
                  Done (to_uint64 (sum_sizes (regular_sizes
                                                (descendants (Directory entries)))))
              | Some (RegularFile size) => Done (to_uint64 size)
              | Some OtherNode => Done 0
              end).
  { unfold get_dir_size, fs_exists, is_directory, is_regular_file, file_size,
      recursive_directory_iterator.
    destruct (resolve root p) as [[size|entries|]|]; simpl; auto.
    rewrite walk_sizes by lia. reflexivity. }
  split; [exact E|].
  intros entries Hres Hsum. rewrite E, Hres. f_equal.
  apply to_uint64_small. split; [apply sum_sizes_nonneg|exact Hsum].
Qed.


(** ** The commit loops *)

Section CommitLoop.

Context {G : Generator} (S : Store).
Variable ph : phase.
Variable batch : Z -> workload -> outcome (UpdateList * Z * workload).
Variables k bound : Z.

(** Induction over a commit loop: [Inv] holds at the head of the loop and
    [Post] of whatever the loop returns. *)
Lemma commit_loop_inv (Inv : Z -> driver S -> Prop) (Post : driver S * status -> Prop) :
  (forall i d, Inv i d -> bound <= i -> Post (d, Finished)) ->
  (forall i d, Inv i d -> i < bound -> Post (d, OutOfFuel)) ->
  (forall i d f, Inv i d -> i < bound -> batch i (d_work d) = Fault f ->
                 Post (d, Aborted f)) ->
  (forall i d l v w, Inv i d -> i < bound -> batch i (d_work d) = Done (l, v, w) ->
     match int_add i k with
     | Done i' => Inv i' (do_commit S ph i l v w d)
     | Fault f => Post (do_commit S ph i l v w d, Aborted f)
     end) ->
  forall fuel i d, Inv i d -> Post (commit_loop S ph batch k bound fuel i d).
Proof.
  intros Hfin Hfuel Hfault Hstep.
  induction fuel as [|fuel IH]; intros i d Hinv; simpl;
    destruct (i <? bound) eqn:E;
    try (apply Z.ltb_lt in E); try (apply Z.ltb_ge in E); eauto.
  destruct (batch i (d_work d)) as [[[l v] w]|f] eqn:B; eauto.
  specialize (Hstep i d l v w Hinv E B).
  destruct (int_add i k) as [i'|f]; auto.
Qed.

End CommitLoop.

Lemma Done_triple {A B C : Type} (a a' : A) (b b' : B) (c c' : C) :
  Done (a, b, c) = Done (a', b', c') -> a = a' /\ b = b' /\ c = c'.
Proof. intros E. injection E. auto. Qed.

Lemma int_add_Done a b c : int_add a b = Done c -> c = a + b /\ INT_MIN <= c <= INT_MAX.
Proof.
  unfold int_add, in_int. destruct (_ && _) eqn:E; [|discriminate].
  intros [= <-]. apply andb_true_iff in E as [E1 E2].
  apply Z.leb_le in E1, E2. auto.
Qed.

Lemma int_div_Done a b q :
  int_div a b = Done q -> b <> 0 /\ q = Z.quot a b /\ INT_MIN <= q <= INT_MAX.
Proof.
  unfold int_div, in_int. destruct (b =? 0) eqn:E0; [discriminate|].
  apply Z.eqb_neq in E0.
  destruct (_ && _) eqn:E; [|discriminate].
  intros [= <-]. apply andb_true_iff in E as [E1 E2].
  apply Z.leb_le in E1, E2. auto.
Qed.

Lemma schedule_S ph k n :
  schedule ph k (Datatypes.S n)
  = schedule ph k n ++ [(ph, Z.of_nat n * k, base_version ph + Z.of_nat n + 1)].
Proof. unfold schedule. rewrite seq_S, map_app. reflexivity. Qed.

Lemma schedule_length ph k n : length (schedule ph k n) = n.
Proof. unfold schedule. now rewrite length_map, length_seq. Qed.

Section Versions.

Context {G : Generator} {H : Hash} (S : Store).

Lemma phase1_batch_version p i w l v w' t :
  i = t * kCommit p -> 0 <= t ->
  phase1_batch p i w = Done (l, v, w') ->
  v = t + 1 /\ kCommit p <> 0.
Proof.
  intros Hi Ht. unfold phase1_batch. intros Hb.
  apply bind_Done in Hb as (e & _ & Hb).
  apply bind_Done in Hb as (b & _ & Hb).
  apply bind_Done in Hb as (q & Hq & Hb).
  apply int_div_Done in Hq as (Hk & -> & Hq).
  apply Done_triple in Hb as (_ & <- & _). split; [|exact Hk].
  subst i. rewrite Z.quot_mul in * by exact Hk.
  unfold INT_MAX in Hq.
  rewrite (to_uint64_small t) by lia. apply to_uint64_small. lia.
Qed.

Lemma phase2_batch_version p m indices i w l v w' t :
  i = t * kCommit p -> 0 <= t ->
  phase2_batch p m indices i w = Done (l, v, w') ->
  v = 1000000 + t + 1 /\ kCommit p <> 0.
Proof.
  intros Hi Ht. unfold phase2_batch. intros Hb.
  apply bind_Done in Hb as (e & _ & Hb).
  apply bind_Done in Hb as ([[data g] total] & _ & Hb).
  apply bind_Done in Hb as (q & Hq & Hb).
  apply int_div_Done in Hq as (Hk & -> & Hq).
  apply Done_triple in Hb as (_ & <- & _). split; [|exact Hk].
  subst i. rewrite Z.quot_mul in * by exact Hk.
  unfold INT_MAX in Hq.
  rewrite (to_uint64_small t) by lia.
  rewrite (to_uint64_small (1000000 + t)) by lia.
  apply to_uint64_small. lia.
Qed.

(** A phase appends its schedule to the log. *)
Lemma commit_loop_schedule ph batch k bound (pre : list (phase * Z * Z)) :
  (forall i w l v w' t, i = t * k -> 0 <= t -> batch i w = Done (l, v, w') ->
                        v = base_version ph + t + 1 /\ k <> 0) ->
  forall fuel d,
    map stamp (d_log d) = pre ->
    exists n, map stamp (d_log (fst (commit_loop S ph batch k bound fuel 0 d)))
              = pre ++ schedule ph k n
              /\ (n <> O -> k <> 0).
Proof.
  intros Hbatch fuel d Hpre.
  apply (commit_loop_inv S ph batch k bound
           (fun i d => exists n, i = Z.of_nat n * k
                                 /\ map stamp (d_log d) = pre ++ schedule ph k n
                                 /\ (n <> O -> k <> 0))
           (fun r => exists n, map stamp (d_log (fst r)) = pre ++ schedule ph k n
                               /\ (n <> O -> k <> 0))).
  - intros i d0 (n & _ & Hn) _. eauto.
  - intros i d0 (n & _ & Hn) _. eauto.
  - intros i d0 f (n & _ & Hn) _ _. eauto.
  - intros i d0 l v w (n & Hi & Hn & _) _ Hb.
    destruct (Hbatch _ _ _ _ _ (Z.of_nat n) Hi ltac:(lia) Hb) as [-> Hk].
    assert (Hlog : map stamp (d_log (do_commit S ph i l (base_version ph + Z.of_nat n + 1) w d0))
                   = pre ++ schedule ph k (Datatypes.S n)).
    { unfold do_commit. destruct (upsert S _ _ _ _) as [root' db']. simpl.
      rewrite map_app, Hn, schedule_S, app_assoc. simpl. unfold stamp at 1. simpl.
      now subst i. }
    destruct (int_add i k) as [i'|f] eqn:Ei.
    + apply int_add_Done in Ei as [-> _]. exists (Datatypes.S n). repeat split; auto; lia.
    + exists (Datatypes.S n). split; auto.
  - exists O. repeat split; try easy. simpl. now rewrite app_nil_r.
Qed.

(** The log of a run is the schedule of phase 1 followed by the schedule
    of phase 2. *)
Lemma run_schedule p db fuel :
  exists n1 n2,
    map stamp (d_log (fst (main S p db fuel)))
    = schedule Creation (kCommit p) n1 ++ schedule Modification (kCommit p) n2
    /\ ((n1 + n2)%nat <> O -> kCommit p <> 0).
Proof.
  unfold main.
  destruct (nAccounts p <? 0); [exists O, O; split; [reflexivity|easy]|].
  match goal with |- context [commit_loop S Creation ?b ?k ?n ?f 0 ?d] =>
    destruct (commit_loop_schedule Creation b k n []
                (fun i w l v w' t => phase1_batch_version p i w l v w' t) f d eq_refl)
      as (n1 & Hn1 & Hk1);
    destruct (commit_loop S Creation b k n f 0 d) as [d1 s1] eqn:E1
  end.
  simpl in Hn1.
  assert (Hstop : exists n1 n2 : nat,
             map stamp (d_log d1)
             = schedule Creation (kCommit p) n1 ++ schedule Modification (kCommit p) n2
             /\ ((n1 + n2)%nat <> O -> kCommit p <> 0)).
  { exists n1, O. rewrite Nat.add_0_r. simpl. rewrite app_nil_r. auto. }
  destruct s1; try exact Hstop.
  destruct (shuffle _ _) as [[indices g]|f]; [|exact Hstop].
  match goal with |- context [commit_loop S Modification ?b ?k ?n ?f 0 ?d] =>
    destruct (commit_loop_schedule Modification b k n (schedule Creation (kCommit p) n1)
                (fun i w l v w' t => phase2_batch_version p _ _ i w l v w' t) f d Hn1)
      as (n2 & Hn2 & Hk2)
  end.
  exists n1, n2. split; [exact Hn2|].
  destruct n1; [|auto]. destruct n2; [easy|auto].
Qed.

(** *** Facts on schedules *)

Lemma StronglySorted_app (l1 l2 : list Z) :
  StronglySorted Z.lt l1 -> StronglySorted Z.lt l2 ->
  (forall x y, In x l1 -> In y l2 -> x < y) ->
  StronglySorted Z.lt (l1 ++ l2).
Proof.
  induction 1 as [|a l1 Hs IH Ha]; intros H2 Hlt; simpl; [exact H2|].
  constructor.
  - apply IH; [exact H2|]. intros x y Hx Hy. apply Hlt; simpl; auto.
  - apply Forall_app. split; [exact Ha|].
    apply Forall_forall. intros y Hy. apply Hlt; simpl; auto.
Qed.

Lemma schedule_In ph k n ph' i v :
  In (ph', i, v) (schedule ph k n) ->
  exists t, (t < n)%nat /\ ph' = ph /\ i = Z.of_nat t * k
            /\ v = base_version ph + Z.of_nat t + 1.
Proof.
  unfold schedule. rewrite in_map_iff. intros (t & E & Hin).
  apply in_seq in Hin. exists t.
  apply pair_equal_spec in E as [E ->]. apply pair_equal_spec in E as [-> ->].
  repeat split; auto; lia.
Qed.

Lemma schedule_sorted ph k n :
  StronglySorted Z.lt (map snd (schedule ph k n)).
Proof.
  induction n as [|n IH]; [constructor|].
  rewrite schedule_S, map_app. apply StronglySorted_app; auto.
  - repeat constructor.
  - intros x y Hx [<-|[]].
    apply in_map_iff in Hx as ([[ph' i] v] & <- & Hin).
    apply schedule_In in Hin as (t & Ht & _ & _ & ->). cbn [snd]. lia.
Qed.

Lemma filter_is_creation (log : list (commit S)) :
  length (filter is_creation log)
  = length (filter stamp_is_creation (map stamp log)).
Proof.
  induction log as [|c log IH]; simpl; [reflexivity|].
  unfold is_creation, stamp_is_creation at 1, stamp at 1. simpl.
  destruct (c_phase c); simpl; auto.
Qed.

Lemma filter_stamps ph (f g : nat -> Z) (l : list nat) :
  length (filter stamp_is_creation (map (fun t => (ph, f t, g t)) l))
  = match ph with
    | Creation => length l
    | Modification => O
    end.
Proof. induction l; destruct ph; simpl; auto. Qed.

Lemma schedule_creation_count k n1 n2 :
  length (filter stamp_is_creation
            (schedule Creation k n1 ++ schedule Modification k n2)) = n1.
Proof.
  rewrite filter_app, length_app. unfold schedule.
  rewrite !filter_stamps, length_seq. lia.
Qed.

Lemma In_stamp (log : list (commit S)) c : In c log -> In (stamp c) (map stamp log).
Proof. apply in_map. Qed.

(** C1: in every run whose phase 1 commits fewer than 1,000,000 batches,
    the versions handed to upsert are strictly increasing over the whole
    run; the batch of phase 1 at loop index i commits at version
    floor(i/kCommit) + 1, the batch of phase 2 at loop index i at version
    1,000,000 + floor(i/kCommit) + 1, the loop indices step by kCommit from
    0, and no version of phase 2 is a version of phase 1. *)
Theorem versions_strictly_increasing (p : params) (db : Db S) (fuel : nat) :
  let log := d_log (fst (main S p db fuel)) in
  Z.of_nat (length (filter is_creation log)) < 1000000 ->
  StronglySorted Z.lt (map c_version log)
  /\ (forall c, In c log -> c_phase c = Creation ->
                c_version c = c_index c / kCommit p + 1)
  /\ (forall c, In c log -> c_phase c = Modification ->
                c_version c = 1000000 + c_index c / kCommit p + 1)
  /\ (forall c1 c2, In c1 log -> In c2 log ->
                    c_phase c1 = Creation -> c_phase c2 = Modification ->
                    c_version c1 <> c_version c2)
  /\ (exists n1 n2, map stamp log
                    = schedule Creation (kCommit p) n1
                      ++ schedule Modification (kCommit p) n2).
Proof.
  intros log Hfew.
  destruct (run_schedule p db fuel) as (n1 & n2 & Hlog & Hk).
  fold log in Hlog.
  assert (Hn1 : Z.of_nat n1 < 1000000).
  { rewrite filter_is_creation, Hlog, schedule_creation_count in Hfew. exact Hfew. }
  assert (Hstamp : forall c, In c log ->
            exists t, c_index c = Z.of_nat t * kCommit p /\ kCommit p <> 0
              /\ ((c_phase c = Creation /\ (t < n1)%nat /\ c_version c = Z.of_nat t + 1)
                  \/ (c_phase c = Modification
                      /\ c_version c = 1000000 + Z.of_nat t + 1))).
  { intros c Hc. apply In_stamp in Hc. rewrite Hlog in Hc.
    unfold stamp in Hc. apply in_app_or in Hc as [Hc|Hc];
      apply schedule_In in Hc as (t & Ht & Hph & Hi & Hv); exists t;
      (split; [exact Hi|]); (split; [apply Hk; lia|]);
      unfold base_version in Hv; [left|right]; repeat split; auto; lia. }
  split; [|split; [|split; [|split]]].
  - replace (map c_version log) with (map snd (map stamp log))
      by (rewrite map_map; reflexivity).
    rewrite Hlog, map_app.
    apply StronglySorted_app; try apply schedule_sorted.
    intros x y Hx Hy.
    apply in_map_iff in Hx as ([[ph1 i1] v1] & <- & Hx).
    apply in_map_iff in Hy as ([[ph2 i2] v2] & <- & Hy).
    apply schedule_In in Hx as (t1 & Ht1 & _ & _ & ->).
    apply schedule_In in Hy as (t2 & Ht2 & _ & _ & ->).
    unfold base_version. cbn [snd]. lia.
  - intros c Hc Hph.
    destruct (Hstamp c Hc) as (t & Hi & Hk0 & [(_ & _ & Hv)|(Hph' & _)]);
      [|congruence].
    rewrite Hv, Hi, Z.div_mul by exact Hk0. reflexivity.
  - intros c Hc Hph.
    destruct (Hstamp c Hc) as (t & Hi & Hk0 & [(Hph' & _)|(_ & Hv)]);
      [congruence|].
    rewrite Hv, Hi, Z.div_mul by exact Hk0. reflexivity.
  - intros c1 c2 Hc1 Hc2 Hp1 Hp2.
    destruct (Hstamp c1 Hc1) as (t1 & _ & _ & [(_ & Ht1 & Hv1)|(Hph' & _)]);
      [|congruence].
    destruct (Hstamp c2 Hc2) as (t2 & _ & _ & [(Hph' & _)|(_ & Hv2)]);
      [congruence|].
    lia.
  - eauto.
Qed.

End Versions.

(** ** Startup *)

Section Startup.

Context {G : Generator} {H : Hash} (S : Store).

Lemma do_commit_starts_from r ph i l v w d :
  starts_from r d -> starts_from r (do_commit S ph i l v w d).
Proof.
  unfold starts_from, do_commit. destruct (upsert S _ _ _ _) as [root' db']. simpl.
  destruct (d_log d); simpl; auto.
Qed.

Lemma commit_loop_starts_from r ph batch k bound fuel i d :
  starts_from r d -> starts_from r (fst (commit_loop S ph batch k bound fuel i d)).
Proof.
  apply (commit_loop_inv S ph batch k bound
           (fun _ d => starts_from r d) (fun res => starts_from r (fst res))); auto.
  intros i0 d0 l v w Hd _ _.
  destruct (int_add i0 k); simpl; now apply do_commit_starts_from.
Qed.

(** C5 (amended): at startup the driver queries the latest committed
    version; when it is neither 0 nor the sentinel 2^64 - 1 the root of that
    version is loaded and is the root the first upsert receives; otherwise,
    also when the latest committed version is 0, the initial root is
    absent. *)
Theorem initial_root_spec (p : params) (db : Db S) (fuel : nat) :
  initial_root S db = resumed_root S db
  /\ starts_from (resumed_root S db) (fst (main S p db fuel)).
Proof.
  assert (E : initial_root S db = resumed_root S db).
  { unfold initial_root, resumed_root.
    destruct (_ =? 0); simpl; auto. destruct (_ =? UINT64_MAX); auto. }
  split; [exact E|].
  unfold main. destruct (nAccounts p <? 0); [exact E|].
  match goal with |- context [commit_loop S Creation ?b ?k ?n ?f 0 ?d] =>
    pose proof (commit_loop_starts_from (resumed_root S db) Creation b k n f 0 d E) as H1;
    destruct (commit_loop S Creation b k n f 0 d) as [d1 s1]
  end.
  simpl in H1. destruct s1; auto.
  destruct (shuffle _ _) as [[indices g]|f]; auto.
  apply commit_loop_starts_from. exact H1.
Qed.

(** ** The scenario nAccounts = 2, kCommit = 1, nSlots = 0 *)

(** C2 (the code at the failing input): with nAccounts = 2, kCommit = 1
    and nSlots = 0 the first draw of a slot count, r() % (nSlots * 2),
    divides by zero: the run aborts before any commit. *)
Theorem zero_slots_aborts (m : Z) (db : Db S) (fuel : nat) :
  let p := {| nAccounts := 2; nSlots := 0; mModify := m; kCommit := 1 |} in
  snd (main S p db (Datatypes.S fuel)) = Aborted DivisionByZero
  /\ d_log (fst (main S p db (Datatypes.S fuel))) = [].
Proof.
  intros p. unfold main. simpl.
  unfold phase1_batch, collect1, for_range. simpl.
  unfold create_account. simpl.
  destruct (account_value _) as [v g1].
  destruct (rand g1) as [x g2]. simpl. auto.
Qed.

End Startup.


(** C5 (counterexample): a store whose latest committed version is 0;
    the version exists and is not the sentinel, yet its root is not
    loaded. *)
Lemma latest_version_zero_not_loaded :
  ~ (forall db : Db Reference.record_store,
       let v := get_latest_version Reference.record_store db in
       Reference.committed db v -> v <> UINT64_MAX ->
       initial_root Reference.record_store db = load_root_for_version Reference.record_store db v).
Proof.
  intros Hall.
  specialize (Hall [(0, [])]). simpl in Hall.
  assert (E : @None Z = Some 0); [|discriminate E].
  apply Hall; [left; reflexivity | discriminate].
Qed.

(** ** More on maps *)

Lemma bytes_eqb_eq a b : bytes_eqb a b = true <-> a = b.
Proof.
  unfold bytes_eqb. split.
  - destruct (bytes_compare a b) eqn:E; try discriminate.
    intros _. now apply bytes_compare_eq.
  - intros ->. now rewrite bytes_compare_refl.
Qed.

Lemma bytes_eqb_refl a : bytes_eqb a a = true.
Proof. now apply bytes_eqb_eq. Qed.

Lemma bytes_eqb_neq a b : bytes_eqb a b = false <-> a <> b.
Proof.
  rewrite <- bytes_eqb_eq. destruct (bytes_eqb a b); split; congruence.
Qed.

Section MoreMapFacts.

Context {V : Type}.
Implicit Types (m : omap V) (v : V).

Lemma map_find_put k k' v m :
  map_find k' (map_put k v m) = if bytes_eqb k k' then Some v else map_find k' m.
Proof.
  destruct (bytes_eqb k k') eqn:E.
  - apply bytes_eqb_eq in E. subst. apply map_find_put_eq.
  - apply bytes_eqb_neq in E. now apply map_find_put_ne.
Qed.

Lemma In_map_put e k v m : In e (map_put k v m) -> e = (k, v) \/ In e m.
Proof.
  induction m as [|[k' v'] m IH]; simpl.
  - intros [<-|[]]; auto.
  - destruct (bytes_compare k k'); simpl.
    + intros [<-|Hin]; auto.
    + intros [<-|Hin]; auto.
    + intros [<-|Hin]; auto. destruct (IH Hin); auto.
Qed.

Lemma map_at_put d k v m : map_at d k (map_put k v m) = v.
Proof. unfold map_at. now rewrite map_find_put_eq. Qed.

Lemma map_at_In d k m : In (k, map_at d k m) m \/ map_at d k m = d.
Proof.
  unfold map_at. destruct (map_find k m) eqn:E; auto.
  left. now apply map_find_In.
Qed.

Lemma map_put_Forall (P : byte_string * V -> Prop) k v m :
  P (k, v) -> Forall P m -> Forall P (map_put k v m).
Proof.
  intros Hv Hm. apply Forall_forall. intros e He.
  apply In_map_put in He as [->|He]; auto.
  rewrite Forall_forall in Hm. auto.
Qed.

End MoreMapFacts.

(** ** Loops *)

Lemma for_count_inv {St : Type} (Inv : Z -> St -> Prop) (body : Z -> St -> outcome St) :
  (forall j s s', Inv j s -> body j s = Done s' -> Inv (j + 1) s') ->
  forall n j s s',
    Inv j s -> for_count n j body s = Done s' -> Inv (j + Z.of_nat n) s'.
Proof.
  intros Hstep. induction n as [|n IH]; intros j s s' Hinv; simpl for_count.
  - intros [= <-]. now rewrite Z.add_0_r.
  - intros Hrun. apply bind_Done in Hrun as (s1 & Hbody & Hrest).
    replace (j + Z.of_nat (S n)) with (j + 1 + Z.of_nat n) by lia.
    eapply IH; eauto.
Qed.

Lemma for_pure_inv {St : Type} (Inv : Z -> St -> Prop) (body : Z -> St -> St) :
  (forall j s, Inv j s -> Inv (j + 1) (body j s)) ->
  forall n j s, Inv j s -> Inv (j + Z.of_nat n) (for_pure n j body s).
Proof.
  intros Hstep. induction n as [|n IH]; intros j s Hinv; simpl for_pure.
  - now rewrite Z.add_0_r.
  - replace (j + Z.of_nat (S n)) with (j + 1 + Z.of_nat n) by lia.
    apply IH. now apply Hstep.
Qed.

(** ** The update lists *)

Lemma push_all {A : Type} (f : A -> Update) (xs : list A) (acc : UpdateList) :
  fold_left (fun l x => push_front (f x) l) xs acc = rev (map f xs) ++ acc.
Proof.
  revert acc. induction xs as [|x xs IH]; intros acc; simpl; [reflexivity|].
  rewrite IH. unfold push_front. now rewrite <- app_assoc.
Qed.

Lemma fold_left_ext {A B : Type} (f g : A -> B -> A) :
  (forall a b, f a b = g a b) ->
  forall l a, fold_left f l a = fold_left g l a.
Proof.
  intros E. induction l as [|b l IH]; intros a; simpl; [reflexivity|].
  now rewrite E, IH.
Qed.

Lemma build_slot_updates_rev (slots : omap byte_string) :
  build_slot_updates slots = rev (map slot_node slots).
Proof.
  unfold build_slot_updates.
  rewrite (fold_left_ext _ (fun l x => push_front (slot_node x) l))
    by (intros a [k v]; reflexivity).
  rewrite push_all. apply app_nil_r.
Qed.

Lemma build_updates1_rev (data : omap AccountData) :
  build_updates1 data = rev (map account_node1 data).
Proof.
  unfold build_updates1.
  rewrite (fold_left_ext _ (fun l x => push_front (account_node1 x) l)).
  - rewrite push_all. apply app_nil_r.
  - intros a [addr acc]. unfold account_node1, set_next. simpl.
    now rewrite build_slot_updates_rev.
Qed.

Lemma build_updates2_rev (data : omap (omap byte_string)) :
  build_updates2 data = rev (map account_node2 data).
Proof.
  unfold build_updates2.
  rewrite (fold_left_ext _ (fun l x => push_front (account_node2 x) l)).
  - rewrite push_all. apply app_nil_r.
  - intros a [addr slots]. unfold account_node2, make_update_next. simpl.
    now rewrite build_slot_updates_rev.
Qed.

Lemma keys_slot_nodes (slots : omap byte_string) :
  map key (map slot_node slots) = keys slots.
Proof. unfold keys. rewrite map_map. reflexivity. Qed.

Lemma keys_account_nodes1 (data : omap AccountData) :
  map key (map account_node1 data) = keys data.
Proof. unfold keys. rewrite map_map. reflexivity. Qed.

Lemma keys_account_nodes2 (data : omap (omap byte_string)) :
  map key (map account_node2 data) = keys data.
Proof. unfold keys. rewrite map_map. reflexivity. Qed.

Lemma descending_rev_nodes {A : Type} (f : A -> Update) (m : list A) :
  StronglySorted bytes_lt (map key (map f m)) ->
  descending (rev (map f m)).
Proof. unfold descending. now rewrite map_rev, rev_involutive. Qed.

Lemma descending_NoDup (l : UpdateList) : descending l -> NoDup (map key l).
Proof.
  unfold descending. intros Hs.
  assert (Hnd : NoDup (rev (map key l))).
  { clear -Hs. induction Hs as [|k ks Hs IH Hall]; constructor; auto.
    intros Hin. rewrite Forall_forall in Hall.
    exact (bytes_lt_irrefl _ (Hall _ Hin)). }
  apply NoDup_rev in Hnd. now rewrite rev_involutive in Hnd.
Qed.

(** ** Generated values *)

Lemma set_nth_app {A : Type} (pre : list A) (x r : A) (rest : list A) :
  set_nth (length pre) x (pre ++ r :: rest) = pre ++ x :: rest.
Proof. induction pre as [|a pre IH]; simpl; [reflexivity|]. now rewrite IH. Qed.

Lemma byte_of_range x : is_byte (byte_of x).
Proof.
  unfold is_byte, byte_of, to_uint8.
  change (2 ^ 8) with 256. apply Z.mod_pos_bound. lia.
Qed.

Section Values.

Context {G : Generator} {H : Hash}.

Lemma rand_range g : 0 <= fst (rand g) < 2 ^ 32.
Proof.
  unfold rand. destruct (prng_next g) as [x g']. simpl.
  unfold to_uint32. apply Z.mod_pos_bound. lia.
Qed.

Lemma draws_length n : forall g, length (fst (draws n g)) = n.
Proof.
  induction n as [|n IH]; intros g; simpl; [reflexivity|].
  destruct (rand g) as [x g1]. specialize (IH g1).
  destruct (draws n g1) as [xs g2]. simpl in *. now rewrite IH.
Qed.

(** Filling [n] bytes after the first [length pre] ones. *)
Lemma fill_from n :
  forall (pre rest : byte_string) g,
    (n <= length rest)%nat ->
    for_pure n (Z.of_nat (length pre))
      (fun b '(v, g) =>
         let (x, g') := rand g in
         (set_nth (Z.to_nat b) (to_uint8 (x mod 256)) v, g'))
      (pre ++ rest, g)
    = (pre ++ map byte_of (fst (draws n g)) ++ skipn n rest, snd (draws n g)).
Proof.
  induction n as [|n IH]; intros pre rest g Hlen; simpl for_pure.
  - reflexivity.
  - destruct rest as [|r rest]; [simpl in Hlen; lia|].
    simpl draws. destruct (rand g) as [x g1].
    rewrite Nat2Z.id, set_nth_app.
    specialize (IH (pre ++ [byte_of x]) rest g1).
    rewrite length_app in IH. simpl length in IH.
    replace (Z.of_nat (length pre) + 1) with (Z.of_nat (length pre + 1)) by lia.
    rewrite <- app_assoc in IH. simpl app in IH.
    fold (byte_of x). rewrite IH by (simpl in Hlen; lia).
    destruct (draws n g1) as [xs g2]. simpl.
    now rewrite <- app_assoc.
Qed.

(** The bytes of a filled string are the next [n] draws, each reduced to
    a byte. *)
Lemma fill_random_draws n g :
  fill_random n (zeros n) g = (map byte_of (fst (draws n g)), snd (draws n g)).
Proof.
  unfold fill_random.
  assert (Hlen : (n <= length (zeros n))%nat)
    by (unfold zeros; rewrite repeat_length; lia).
  etransitivity; [exact (fill_from n [] (zeros n) g Hlen)|].
  unfold zeros. rewrite skipn_all2 by (rewrite repeat_length; lia).
  simpl app. now rewrite app_nil_r.
Qed.

Lemma fill_random_bytes n g :
  length (fst (fill_random n (zeros n) g)) = n
  /\ Forall is_byte (fst (fill_random n (zeros n) g)).
Proof.
  rewrite fill_random_draws. simpl. split.
  - now rewrite length_map, draws_length.
  - apply Forall_forall. intros b Hb.
    apply in_map_iff in Hb as (x & <- & _). apply byte_of_range.
Qed.

Lemma account_value_draws g :
  account_value g = (map byte_of (fst (draws 40 g)), snd (draws 40 g)).
Proof. apply fill_random_draws. Qed.

Lemma modified_value_draws g :
  modified_value g = (map byte_of (fst (draws 32 g)), snd (draws 32 g)).
Proof. apply fill_random_draws. Qed.

(** The value of a slot of phase 1 is decided by the dice. *)
Lemma slot_value_variant g :
  slot_value g = slot_variant (fst (rand g) mod 100) (snd (rand g)).
Proof.
  unfold slot_value, slot_variant.
  pose proof (rand_range g) as Hr.
  destruct (rand g) as [x g1]. simpl fst in *. simpl snd.
  assert (Hd : 0 <= x mod 100 < 100) by (apply Z.mod_pos_bound; lia).
  assert (E : to_uint32 (x mod 100) = x mod 100)
    by (unfold to_uint32; apply Z.mod_small; lia).
  rewrite E.
  destruct (x mod 100 <? 20); [reflexivity|].
  destruct (x mod 100 <? 30); [reflexivity|].
  apply fill_random_draws.
Qed.

Lemma slot_variant_bytes dice g :
  length (fst (slot_variant dice g)) = 32%nat
  /\ Forall is_byte (fst (slot_variant dice g)).
Proof.
  unfold slot_variant.
  destruct (dice <? 20); [|destruct (dice <? 30)]; cbn [fst].
  - split; [reflexivity|].
    repeat (apply Forall_cons; [unfold is_byte; lia|]). apply Forall_nil.
  - split; [reflexivity|].
    repeat (apply Forall_cons; [unfold is_byte; lia|]). apply Forall_nil.
  - split; [now rewrite length_map, draws_length|].
    apply Forall_forall. intros b Hb.
    apply in_map_iff in Hb as (x & <- & _). apply byte_of_range.
Qed.

End Values.

(** ** Deduplication: the maps of a batch against its raw writes *)

Lemma Done_inj {A : Type} (a b : A) : Done a = Done b -> a = b.
Proof. intros E. now injection E. Qed.

Lemma or_else_assoc {A : Type} (a b c : option A) :
  or_else a (or_else b c) = or_else (or_else a b) c.
Proof. now destruct a. Qed.

Lemma or_else_None {A : Type} (a : option A) : or_else a None = a.
Proof. now destruct a. Qed.

Lemma last_account_write_app a ws1 ws2 :
  last_account_write a (ws1 ++ ws2)
  = or_else (last_account_write a ws2) (last_account_write a ws1).
Proof.
  induction ws1 as [|w ws1 IH]; simpl.
  - now rewrite or_else_None.
  - rewrite IH. unfold or_else.
    destruct (last_account_write a ws2); [reflexivity|].
    destruct (last_account_write a ws1); reflexivity.
Qed.

Lemma last_slot_write_app a k ws1 ws2 :
  last_slot_write a k (ws1 ++ ws2)
  = or_else (last_slot_write a k ws2) (last_slot_write a k ws1).
Proof.
  induction ws1 as [|w ws1 IH]; simpl.
  - now rewrite or_else_None.
  - rewrite IH. unfold or_else.
    destruct (last_slot_write a k ws2); [reflexivity|].
    destruct (last_slot_write a k ws1); reflexivity.
Qed.

Section Dedup1.

Context {G : Generator} {H : Hash}.

(** The slots of one account of phase 1. *)
Lemma create_slots_writes j n :
  forall s g slots total,
    let r := for_pure n s (create_slot j) (slots, g, total) in
    let w := slot_writes1 n j s g in
    snd (fst r) = snd w
    /\ (forall k, map_find k (fst (fst r))
                  = or_else (last_slot_write (account_key j) k (fst w))
                            (map_find k slots))
    /\ (ascending slots -> ascending (fst (fst r)))
    /\ (forall a k, a <> account_key j -> last_slot_write a k (fst w) = None)
    /\ (forall a, last_account_write a (fst w) = None).
Proof.
  induction n as [|n IH]; intros s g slots total; simpl.
  - repeat split; auto.
  - destruct (slot_value g) as [sVal g1].
    specialize (IH (s + 1) g1 (map_put (slot_key j s) sVal slots) (total + 1)).
    simpl in IH. destruct IH as (Hg & Hfind & Hasc & Hother & Hacc).
    destruct (slot_writes1 n j (s + 1) g1) as [ws g2]. simpl in *.
    repeat split.
    + exact Hg.
    + intros k. rewrite Hfind, map_find_put.
      rewrite bytes_eqb_refl. simpl.
      destruct (last_slot_write (account_key j) k ws); [reflexivity|].
      destruct (bytes_eqb (slot_key j s) k); reflexivity.
    + intros Hs. apply Hasc. now apply map_put_ascending.
    + intros a k Ha. rewrite (Hother a k Ha).
      assert (E : bytes_eqb (account_key j) a = false)
        by (apply bytes_eqb_neq; congruence).
      now rewrite E.
    + intros a. now rewrite Hacc.
Qed.

Lemma slot_of1_put addr acc data a k :
  slot_of1 a k (map_put addr acc data)
  = if bytes_eqb addr a then map_find k (acc_slots acc) else slot_of1 a k data.
Proof.
  unfold slot_of1. rewrite map_find_put. now destruct (bytes_eqb addr a).
Qed.

Lemma account_of_put addr acc data a :
  account_of a (map_put addr acc data)
  = if bytes_eqb addr a then Some (acc_value acc) else account_of a data.
Proof.
  unfold account_of. rewrite map_find_put. now destruct (bytes_eqb addr a).
Qed.

Lemma slots_at addr data k :
  map_find k (acc_slots (map_at AccountData_new addr data)) = slot_of1 addr k data.
Proof.
  unfold slot_of1, map_at. now destruct (map_find addr data).
Qed.

Lemma well_formed1_at addr data :
  well_formed1 data -> ascending (acc_slots (map_at AccountData_new addr data)).
Proof.
  intros [_ Hall]. destruct (map_at_In AccountData_new addr data) as [Hin| ->].
  - rewrite Forall_forall in Hall. exact (Hall _ Hin).
  - constructor.
Qed.

(** One account of phase 1. *)
Lemma create_account_writes nSlots j st st' :
  create_account nSlots j st = Done st' ->
  exists ws,
    account_writes1 nSlots j (b1_gen st) = Done (ws, b1_gen st')
    /\ (forall a, account_of a (b1_data st')
                  = or_else (last_account_write a ws) (account_of a (b1_data st)))
    /\ (forall a k, slot_of1 a k (b1_data st')
                    = or_else (last_slot_write a k ws) (slot_of1 a k (b1_data st)))
    /\ (well_formed1 (b1_data st) -> well_formed1 (b1_data st')).
Proof.
  unfold create_account, account_writes1.
  destruct (account_value (b1_gen st)) as [v g1].
  destruct (rand g1) as [x g2].
  destruct (int_mul nSlots 2) as [twice|f]; [|discriminate]. simpl bind.
  destruct (urem x twice) as [m|f]; [|discriminate]. simpl bind.
  pose proof (create_slots_writes j (Z.to_nat (to_int32 m)) 0 g2
                (acc_slots (map_at AccountData_new (account_key j) (b1_data st)))
                (b1_total st)) as Hslots.
  cbv zeta in Hslots.
  destruct (for_pure _ 0 (create_slot j) _) as [[slots g3] total].
  destruct (slot_writes1 _ j 0 g2) as [ws g3'].
  simpl in Hslots. destruct Hslots as (<- & Hfind & Hasc & Hother & Hacc).
  intros E. apply Done_inj in E. subst st'. simpl.
  eexists. split; [reflexivity|]. split; [|split; [|intros Hwf; split]].
  - intros a. rewrite account_of_put. simpl. rewrite Hacc.
    destruct (bytes_eqb (account_key j) a); reflexivity.
  - intros a k. rewrite slot_of1_put. simpl.
    destruct (bytes_eqb (account_key j) a) eqn:E.
    + apply bytes_eqb_eq in E. subst a.
      rewrite Hfind, slots_at.
      destruct (last_slot_write (account_key j) k ws); reflexivity.
    + apply bytes_eqb_neq in E. rewrite Hother by congruence. reflexivity.
  - apply map_put_ascending, Hwf.
  - apply map_put_Forall; [|apply Hwf]. simpl.
    apply Hasc. now apply well_formed1_at.
Qed.

(** The accounts of a batch of phase 1. *)
Lemma create_accounts_writes nSlots n :
  forall j st st',
    for_count n j (create_account nSlots) st = Done st' ->
    exists ws,
      batch_writes1 nSlots n j (b1_gen st) = Done (ws, b1_gen st')
      /\ (forall a, account_of a (b1_data st')
                    = or_else (last_account_write a ws) (account_of a (b1_data st)))
      /\ (forall a k, slot_of1 a k (b1_data st')
                      = or_else (last_slot_write a k ws) (slot_of1 a k (b1_data st)))
      /\ (well_formed1 (b1_data st) -> well_formed1 (b1_data st')).
Proof.
  induction n as [|n IH]; intros j st st'; simpl.
  - intros E. apply Done_inj in E. subst st'. exists []. simpl. auto.
  - intros E. apply bind_Done in E as (st1 & E1 & E2).
    apply create_account_writes in E1 as (ws1 & W1 & A1 & S1 & F1).
    apply IH in E2 as (ws2 & W2 & A2 & S2 & F2).
    exists (ws1 ++ ws2). rewrite W1. simpl. rewrite W2. simpl.
    split; [reflexivity|]. split; [|split]; auto.
    + intros a. rewrite A2, A1, last_account_write_app. apply or_else_assoc.
    + intros a k. rewrite S2, S1, last_slot_write_app. apply or_else_assoc.
Qed.

End Dedup1.

Section Dedup2.

Context {G : Generator} {H : Hash}.

Lemma slot_of2_put addr slots data a k :
  slot_of2 a k (map_put addr slots data)
  = if bytes_eqb addr a then map_find k slots else slot_of2 a k data.
Proof.
  unfold slot_of2. rewrite map_find_put. now destruct (bytes_eqb addr a).
Qed.

Lemma slots_at2 addr (data : omap (omap byte_string)) k :
  map_find k (map_at ([] : omap byte_string) addr data) = slot_of2 addr k data.
Proof.
  unfold slot_of2, map_at. destruct (map_find addr data); reflexivity.
Qed.

Lemma well_formed2_at addr data :
  well_formed2 data -> ascending (map_at ([] : omap byte_string) addr data).
Proof.
  intros [_ Hall]. destruct (map_at_In ([] : omap byte_string) addr data)
    as [Hin|E].
  - rewrite Forall_forall in Hall. exact (Hall _ Hin).
  - rewrite E. constructor.
Qed.

(** The slots of one account of phase 2. *)
Lemma modify_slots_writes nSlots accountIdx addr n :
  forall j data g total data' g' total',
    for_count n j (fun _ => modify_slot nSlots accountIdx addr) (data, g, total)
    = Done (data', g', total') ->
    exists ws,
      slot_writes2 nSlots accountIdx addr n g = Done (ws, g')
      /\ (forall a k, slot_of2 a k data'
                      = or_else (last_slot_write a k ws) (slot_of2 a k data))
      /\ (forall a, last_account_write a ws = None)
      /\ (well_formed2 data -> well_formed2 data').
Proof.
  induction n as [|n IH]; intros j data g total data' g' total'; simpl.
  - intros E. apply Done_inj in E. injection E as <- <- <-.
    exists []. simpl. auto.
  - intros E. apply bind_Done in E as ([[data1 g1] total1] & E1 & E2).
    unfold modify_slot in E1.
    destruct (rand g) as [x gx].
    destruct (urem x nSlots) as [m|f]; [|discriminate]. simpl bind in *.
    destruct (modified_value gx) as [sVal gv].
    apply Done_inj in E1. injection E1 as <- <- <-.
    apply IH in E2 as (ws & W & S2 & A2 & F2).
    rewrite W. simpl bind.
    eexists. split; [reflexivity|]. split; [|split; [|intros Hwf]].
    + intros a k. rewrite S2, slot_of2_put, map_find_put, slots_at2. simpl.
      destruct (last_slot_write a k ws); [reflexivity|]. simpl.
      destruct (bytes_eqb addr a) eqn:Ea; simpl; [|reflexivity].
      apply bytes_eqb_eq in Ea. subst a.
      destruct (bytes_eqb _ k); reflexivity.
    + intros a. simpl. now rewrite A2.
    + apply F2. split.
      * apply map_put_ascending, Hwf.
      * apply map_put_Forall; [|apply Hwf]. simpl.
        apply map_put_ascending. now apply well_formed2_at.
Qed.

(** The accounts of a batch of phase 2. *)
Lemma modify_accounts_writes nSlots indices addrs n :
  forall j data g total data' g' total',
    for_count n j (modify_account nSlots indices addrs) (data, g, total)
    = Done (data', g', total') ->
    exists ws,
      batch_writes2 nSlots indices addrs n j g = Done (ws, g')
      /\ (forall a k, slot_of2 a k data'
                      = or_else (last_slot_write a k ws) (slot_of2 a k data))
      /\ (forall a, last_account_write a ws = None)
      /\ (well_formed2 data -> well_formed2 data').
Proof.
  induction n as [|n IH]; intros j data g total data' g' total'; simpl.
  - intros E. apply Done_inj in E. injection E as <- <- <-.
    exists []. simpl. auto.
  - intros E. apply bind_Done in E as ([[data1 g1] total1] & E1 & E2).
    unfold modify_account in E1. unfold account_writes2.
    destruct (vec_get indices j) as [accountIdx|f]; [|discriminate]. cbn [bind] in *.
    destruct (vec_get addrs accountIdx) as [addr|f]; [|discriminate]. cbn [bind] in *.
    apply modify_slots_writes in E1 as (ws1 & W1 & S1 & A1 & F1).
    apply IH in E2 as (ws2 & W2 & S2 & A2 & F2).
    change (Z.to_nat (100 - 0)) with 100%nat in W1.
    rewrite W1. cbn [bind]. rewrite W2. cbn [bind].
    exists (ws1 ++ ws2). split; [reflexivity|]. split; [|split]; auto.
    + intros a k. rewrite S2, S1, last_slot_write_app. apply or_else_assoc.
    + intros a. now rewrite last_account_write_app, A2, A1.
Qed.

End Dedup2.

(** ** Where the writes come from *)

Lemma last_account_write_In a v ws :
  last_account_write a ws = Some v -> In (AccountWrite a v) ws.
Proof.
  induction ws as [|w ws IH]; simpl; [discriminate|].
  destruct (last_account_write a ws) as [v'|].
  - intros [= ->]. auto.
  - destruct w as [a' v'|a' k' v']; [|discriminate].
    destruct (bytes_eqb a' a) eqn:E; [|discriminate].
    apply bytes_eqb_eq in E. subst a'. intros [= ->]. auto.
Qed.

Lemma last_slot_write_In a k v ws :
  last_slot_write a k ws = Some v -> In (SlotWrite a k v) ws.
Proof.
  induction ws as [|w ws IH]; simpl; [discriminate|].
  destruct (last_slot_write a k ws) as [v'|].
  - intros [= ->]. auto.
  - destruct w as [a' v'|a' k' v']; [discriminate|].
    destruct (bytes_eqb a' a && bytes_eqb k' k) eqn:E; [|discriminate].
    apply andb_true_iff in E as [Ea Ek].
    apply bytes_eqb_eq in Ea, Ek. subst a' k'. intros [= ->]. auto.
Qed.

Section Origins.

Context {G : Generator} {H : Hash}.

Lemma slot_writes1_generated n :
  forall j s g, Forall generated1 (fst (slot_writes1 n j s g)).
Proof.
  induction n as [|n IH]; intros j s g; simpl; [constructor|].
  destruct (slot_value g) as [v g1] eqn:Ev.
  specialize (IH j (s + 1) g1).
  destruct (slot_writes1 n j (s + 1) g1) as [ws g2]. simpl in *.
  constructor; [|exact IH]. simpl. exists j, s, g. now rewrite Ev.
Qed.

Lemma account_writes1_generated nSlots j g ws g' :
  account_writes1 nSlots j g = Done (ws, g') -> Forall generated1 ws.
Proof.
  unfold account_writes1.
  destruct (account_value g) as [v g1] eqn:Ev.
  destruct (rand g1) as [x g2].
  destruct (int_mul nSlots 2) as [twice|f]; [|discriminate]. cbn [bind].
  destruct (urem x twice) as [m|f]; [|discriminate]. cbn [bind].
  pose proof (slot_writes1_generated (Z.to_nat (to_int32 m)) j 0 g2) as Hs.
  destruct (slot_writes1 _ j 0 g2) as [ws' g3]. simpl in Hs.
  intros E. apply Done_inj in E. injection E as <- <-.
  constructor; [|exact Hs]. simpl. exists j, g. now rewrite Ev.
Qed.

Lemma batch_writes1_generated nSlots n :
  forall j g ws g',
    batch_writes1 nSlots n j g = Done (ws, g') -> Forall generated1 ws.
Proof.
  induction n as [|n IH]; intros j g ws g'; simpl.
  - intros E. apply Done_inj in E. injection E as <- <-. constructor.
  - intros E. apply bind_Done in E as ([ws1 g1] & E1 & E).
    apply bind_Done in E as ([ws2 g2] & E2 & E).
    apply Done_inj in E. injection E as <- <-.
    apply Forall_app. split.
    + eapply account_writes1_generated; eauto.
    + eapply IH; eauto.
Qed.

Lemma slot_writes2_generated nSlots accountIdx addr addrs n :
  In addr addrs ->
  forall g ws g',
    slot_writes2 nSlots accountIdx addr n g = Done (ws, g') ->
    Forall (generated2 addrs) ws.
Proof.
  intros Haddr. induction n as [|n IH]; intros g ws g'; simpl.
  - intros E. apply Done_inj in E. injection E as <- <-. constructor.
  - destruct (rand g) as [x g1].
    destruct (urem x nSlots) as [m|f]; [|discriminate]. cbn [bind].
    destruct (modified_value g1) as [v g2] eqn:Ev.
    intros E. apply bind_Done in E as ([ws' g3] & E1 & E).
    apply Done_inj in E. injection E as <- <-.
    constructor; [|eapply IH; eauto]. simpl.
    exists accountIdx, (to_int32 m), g1. now rewrite Ev.
Qed.

Lemma batch_writes2_generated nSlots indices addrs n :
  forall j g ws g',
    batch_writes2 nSlots indices addrs n j g = Done (ws, g') ->
    Forall (generated2 addrs) ws.
Proof.
  induction n as [|n IH]; intros j g ws g'; simpl.
  - intros E. apply Done_inj in E. injection E as <- <-. constructor.
  - intros E. apply bind_Done in E as ([ws1 g1] & E1 & E).
    apply bind_Done in E as ([ws2 g2] & E2 & E).
    apply Done_inj in E. injection E as <- <-.
    apply Forall_app. split; [|eapply IH; eauto].
    unfold account_writes2 in E1.
    apply bind_Done in E1 as (accountIdx & _ & E1).
    apply bind_Done in E1 as (addr & Haddr & E1).
    apply vec_get_Done in Haddr as [_ Haddr].
    eapply slot_writes2_generated; eauto.
Qed.

End Origins.

(** ** The batches *)

Lemma well_formed1_nil : well_formed1 [].
Proof. split; constructor. Qed.

Lemma well_formed2_nil : well_formed2 [].
Proof. split; constructor. Qed.

Lemma nodes1_shape (data : omap AccountData) :
  well_formed1 data ->
  descending (build_updates1 data)
  /\ Forall (fun u => descending (next u)) (build_updates1 data).
Proof.
  intros [Hasc Hall]. rewrite build_updates1_rev. split.
  - apply descending_rev_nodes. now rewrite keys_account_nodes1.
  - apply Forall_forall. intros u Hu.
    apply in_rev, in_map_iff in Hu as (e & <- & He).
    rewrite Forall_forall in Hall. specialize (Hall e He).
    unfold account_node1. simpl next.
    apply descending_rev_nodes. now rewrite keys_slot_nodes.
Qed.

Lemma nodes2_shape (data : omap (omap byte_string)) :
  well_formed2 data ->
  descending (build_updates2 data)
  /\ Forall (fun u => descending (next u)) (build_updates2 data).
Proof.
  intros [Hasc Hall]. rewrite build_updates2_rev. split.
  - apply descending_rev_nodes. now rewrite keys_account_nodes2.
  - apply Forall_forall. intros u Hu.
    apply in_rev, in_map_iff in Hu as (e & <- & He).
    rewrite Forall_forall in Hall. specialize (Hall e He).
    unfold account_node2. simpl next.
    apply descending_rev_nodes. now rewrite keys_slot_nodes.
Qed.

Lemma Forall_descending_NoDup (l : UpdateList) :
  Forall (fun u => descending (next u)) l ->
  Forall (fun u => NoDup (map key (next u))) l.
Proof. apply Forall_impl. intros u. apply descending_NoDup. Qed.

Section Batches.

Context {G : Generator} {H : Hash}.

Lemma collect1_writes p i batchEnd w b :
  collect1 p i batchEnd w = Done b ->
  exists ws,
    batch_writes1 (nSlots p) (Z.to_nat (batchEnd - i)) i (w_gen w) = Done (ws, b1_gen b)
    /\ (forall a, account_of a (b1_data b) = last_account_write a ws)
    /\ (forall a k, slot_of1 a k (b1_data b) = last_slot_write a k ws)
    /\ well_formed1 (b1_data b).
Proof.
  unfold collect1, for_range. intros E.
  apply create_accounts_writes in E as (ws & W & A & S & F). simpl in *.
  exists ws. split; [exact W|]. split; [|split].
  - intros a. rewrite A. apply or_else_None.
  - intros a k. rewrite S. apply or_else_None.
  - apply F, well_formed1_nil.
Qed.

Lemma collect2_writes p indices i batchEnd w data g total :
  collect2 p indices i batchEnd w = Done (data, g, total) ->
  exists ws,
    batch_writes2 (nSlots p) indices (w_addrs w) (Z.to_nat (batchEnd - i)) i (w_gen w)
    = Done (ws, g)
    /\ (forall a k, slot_of2 a k data = last_slot_write a k ws)
    /\ well_formed2 data.
Proof.
  unfold collect2, for_range. intros E.
  apply modify_accounts_writes in E as (ws & W & S & A & F).
  exists ws. split; [exact W|]. split.
  - intros a k. rewrite S. apply or_else_None.
  - apply F, well_formed2_nil.
Qed.

(** C3: in every batch of either phase the deduplicated structure holds
    for each address and for each (address, slot key) the value of the
    latest write of the batch to it, enumerates accounts and slots by
    ascending key, and so no address and no slot key occurs twice in the
    assembled update list. *)
Theorem dedup_latest_write_wins (p : params) (indices : list Z)
    (i batchEnd : Z) (w : workload) :
  (forall b, collect1 p i batchEnd w = Done b ->
     exists ws,
       batch_writes1 (nSlots p) (Z.to_nat (batchEnd - i)) i (w_gen w)
       = Done (ws, b1_gen b)
       /\ (forall a, account_of a (b1_data b) = last_account_write a ws)
       /\ (forall a k, slot_of1 a k (b1_data b) = last_slot_write a k ws)
       /\ well_formed1 (b1_data b)
       /\ NoDup (map key (build_updates1 (b1_data b)))
       /\ Forall (fun u => NoDup (map key (next u))) (build_updates1 (b1_data b)))
  /\ (forall data g total,
        collect2 p indices i batchEnd w = Done (data, g, total) ->
        exists ws,
          batch_writes2 (nSlots p) indices (w_addrs w) (Z.to_nat (batchEnd - i)) i
            (w_gen w) = Done (ws, g)
          /\ (forall a k, slot_of2 a k data = last_slot_write a k ws)
          /\ well_formed2 data
          /\ NoDup (map key (build_updates2 data))
          /\ Forall (fun u => NoDup (map key (next u))) (build_updates2 data)).
Proof.
  split.
  - intros b E. apply collect1_writes in E as (ws & W & A & S & F).
    destruct (nodes1_shape _ F) as [Hd Hn].
    exists ws. repeat split; auto; try apply F.
    + now apply descending_NoDup.
    + now apply Forall_descending_NoDup.
  - intros data g total E. apply collect2_writes in E as (ws & W & S & F).
    destruct (nodes2_shape _ F) as [Hd Hn].
    exists ws. repeat split; auto; try apply F.
    + now apply descending_NoDup.
    + now apply Forall_descending_NoDup.
Qed.

Lemma phase1_batch_data p i w l v w' :
  phase1_batch p i w = Done (l, v, w') ->
  exists b,
    collect1 p i (Z.min (i + kCommit p) (nAccounts p)) w = Done b
    /\ l = build_updates1 (b1_data b).
Proof.
  unfold phase1_batch. intros E.
  apply bind_Done in E as (e & He & E). apply int_add_Done in He as [-> _].
  apply bind_Done in E as (b & Hb & E).
  apply bind_Done in E as (q & _ & E).
  apply Done_triple in E as (<- & _ & _). eauto.
Qed.

Lemma phase2_batch_data p m indices i w l v w' :
  phase2_batch p m indices i w = Done (l, v, w') ->
  exists data g total,
    collect2 p indices i (Z.min (i + kCommit p) m) w = Done (data, g, total)
    /\ l = build_updates2 data.
Proof.
  unfold phase2_batch. intros E.
  apply bind_Done in E as (e & He & E). apply int_add_Done in He as [-> _].
  apply bind_Done in E as ([[data g] total] & Hb & E).
  apply bind_Done in E as (q & _ & E).
  apply Done_triple in E as (<- & _ & _). eauto.
Qed.

(** C4: the update list of every batch enumerates its account nodes in
    the reverse of the ascending order of their keys, each node having
    been put at the head, and the slot list of every account node
    enumerates its slot nodes in the reverse of the ascending order of the
    slot keys. *)
Theorem update_lists_reverse_canonical (p : params) (m : Z) (indices : list Z)
    (i : Z) (w : workload) :
  (forall l v w', phase1_batch p i w = Done (l, v, w') ->
     exists b,
       collect1 p i (Z.min (i + kCommit p) (nAccounts p)) w = Done b
       /\ well_formed1 (b1_data b)
       /\ l = rev (map account_node1 (b1_data b))
       /\ descending l
       /\ Forall (fun u => descending (next u)) l)
  /\ (forall l v w', phase2_batch p m indices i w = Done (l, v, w') ->
        exists data g total,
          collect2 p indices i (Z.min (i + kCommit p) m) w = Done (data, g, total)
          /\ well_formed2 data
          /\ l = rev (map account_node2 data)
          /\ descending l
          /\ Forall (fun u => descending (next u)) l).
Proof.
  split.
  - intros l v w' E. apply phase1_batch_data in E as (b & Hb & ->).
    exists b. split; [exact Hb|].
    apply collect1_writes in Hb as (ws & _ & _ & _ & F).
    destruct (nodes1_shape _ F) as [Hd Hn].
    repeat split; auto; try apply F. apply build_updates1_rev.
  - intros l v w' E. apply phase2_batch_data in E as (data & g & total & Hb & ->).
    exists data, g, total. split; [exact Hb|].
    apply collect2_writes in Hb as (ws & _ & _ & F).
    destruct (nodes2_shape _ F) as [Hd Hn].
    repeat split; auto; try apply F. apply build_updates2_rev.
Qed.

End Batches.

(** ** The values the nodes carry *)

Section NodeValues.

Context {G : Generator} {H : Hash}.

(** C6 (amended): every account node of a batch of phase 1 carries the
    address and the account value of the latest write of the batch to that
    address, a blob of 40 bytes drawn from the generator, the next 40
    draws each reduced to a byte, on every write of the account; the
    account nodes of phase 2 carry the address and the slot list and no
    account value. *)
Theorem account_nodes_carry_values (p : params) (m : Z) (indices : list Z)
    (i : Z) (w : workload) :
  (forall l v w', phase1_batch p i w = Done (l, v, w') ->
     exists ws g',
       batch_writes1 (nSlots p)
         (Z.to_nat (Z.min (i + kCommit p) (nAccounts p) - i)) i (w_gen w)
       = Done (ws, g')
       /\ Forall generated1 ws
       /\ Forall (fun u => exists val,
                    value u = Some val
                    /\ last_account_write (key u) ws = Some val
                    /\ length val = 40%nat
                    /\ Forall is_byte val) l)
  /\ (forall g, account_value g
                = (map byte_of (fst (draws 40 g)), snd (draws 40 g)))
  /\ (forall l v w', phase2_batch p m indices i w = Done (l, v, w') ->
        Forall (fun u => value u = None) l).
Proof.
  split; [|split].
  - intros l v w' E. apply phase1_batch_data in E as (b & Hb & ->).
    apply collect1_writes in Hb as (ws & W & A & _ & F).
    pose proof (batch_writes1_generated _ _ _ _ _ _ W) as Hgen.
    exists ws, (b1_gen b). split; [exact W|]. split; [exact Hgen|].
    rewrite build_updates1_rev. apply Forall_forall. intros u Hu.
    apply in_rev, in_map_iff in Hu as ([a acc] & <- & He).
    exists (acc_value acc). simpl.
    assert (Hlast : last_account_write a ws = Some (acc_value acc)).
    { rewrite <- A. unfold account_of.
      now rewrite (In_map_find a acc (b1_data b) (proj1 F) He). }
    split; [reflexivity|]. split; [exact Hlast|].
    apply last_account_write_In in Hlast.
    rewrite Forall_forall in Hgen. apply Hgen in Hlast.
    destruct Hlast as (j & g & _ & ->). apply fill_random_bytes.
  - apply account_value_draws.
  - intros l v w' E. apply phase2_batch_data in E as (data & g & total & _ & ->).
    rewrite build_updates2_rev. apply Forall_forall. intros u Hu.
    apply in_rev, in_map_iff in Hu as (e & <- & _). reflexivity.
Qed.

(** C7 (amended): every slot value is 32 bytes.  In phase 1 it is chosen
    among three variants by the one draw dice = r() % 100: all zero for the
    20 values of the dice below 20, zero but for a last byte 1 for the 10
    values from 20 to 29, and 32 further draws each reduced to a byte for
    the 70 other values.  In phase 2 there is no dice: the value is always
    32 draws each reduced to a byte. *)
Theorem slot_values_by_phase :
  (forall g, slot_value g = slot_variant (fst (rand g) mod 100) (snd (rand g))
             /\ 0 <= fst (rand g) mod 100 < 100)
  /\ (forall dice g, length (fst (slot_variant dice g)) = 32%nat
                     /\ Forall is_byte (fst (slot_variant dice g)))
  /\ (length (filter (fun d => d <? 20) (iota 100)) = 20%nat
      /\ length (filter (fun d => negb (d <? 20) && (d <? 30)) (iota 100)) = 10%nat
      /\ length (filter (fun d => negb (d <? 30)) (iota 100)) = 70%nat)
  /\ (forall g, modified_value g
                = (map byte_of (fst (draws 32 g)), snd (draws 32 g)))
  /\ (forall nSlots n j g ws g',
        batch_writes1 nSlots n j g = Done (ws, g') -> Forall generated1 ws)
  /\ (forall nSlots indices addrs n j g ws g',
        batch_writes2 nSlots indices addrs n j g = Done (ws, g') ->
        Forall (generated2 addrs) ws).
Proof.
  split; [|split; [|split; [|split; [|split]]]].
  - intros g. split; [apply slot_value_variant|].
    apply Z.mod_pos_bound. lia.
  - apply slot_variant_bytes.
  - repeat split; vm_compute; reflexivity.
  - apply modified_value_draws.
  - apply batch_writes1_generated.
  - apply batch_writes2_generated.
Qed.

End NodeValues.

Import Reference.

(** The log of the small run, evaluated. *)
Lemma sample_log_eq :
  d_log (fst (main record_store sample_params [] 5)) = sample_log.
Proof. vm_compute. reflexivity. Qed.

(** C6 (counterexample): one account, one slot, one modification; the
    account node of the batch of phase 2 carries no value. *)
Lemma modification_node_without_value :
  ~ (forall c u,
       In c (d_log (fst (main record_store sample_params [] 5))) ->
       In u (c_updates c) ->
       exists val, value u = Some val /\ length val = 40%nat).
Proof.
  rewrite sample_log_eq. unfold sample_log. intros Hall.
  edestruct Hall as (val & Hv & _);
    [right; left; reflexivity | left; reflexivity | discriminate Hv].
Qed.

(** C7 (counterexample): at the state of the generator seeded with 42 the
    dice is 27, for which the rule of phase 1 gives the value with a last
    byte 1; the value phase 2 writes there is another. *)
Lemma modified_value_ignores_dice :
  ~ (forall g : prng, fst (modified_value g) = fst (slot_value g)).
Proof.
  intros Hall. specialize (Hall (prng_seed 42)).
  vm_compute in Hall. discriminate Hall.
Qed.

(** ** Subscripts stay in range *)

Lemma bind_not_fault {A B : Type} (m : outcome A) (k : A -> outcome B) (f : fault) :
  m <> Fault f -> (forall a, m = Done a -> k a <> Fault f) -> bind m k <> Fault f.
Proof.
  destruct m as [a|f']; simpl; intros Hm Hk; [now apply Hk|].
  intros E. apply Hm. congruence.
Qed.

Lemma for_count_not_fault {St : Type} (body : Z -> St -> outcome St) (f : fault) n :
  forall lo s,
    (forall j s, lo <= j < lo + Z.of_nat n -> body j s <> Fault f) ->
    for_count n lo body s <> Fault f.
Proof.
  induction n as [|n IH]; intros lo s Hbody; simpl; [discriminate|].
  apply bind_not_fault.
  - apply Hbody. lia.
  - intros s' _. apply IH. intros j s0 Hj. apply Hbody. lia.
Qed.

Lemma int_add_not_range a b : int_add a b <> Fault OutOfRange.
Proof. unfold int_add. destruct (in_int _); discriminate. Qed.

Lemma int_mul_not_range a b : int_mul a b <> Fault OutOfRange.
Proof. unfold int_mul. destruct (in_int _); discriminate. Qed.

Lemma int_div_not_range a b : int_div a b <> Fault OutOfRange.
Proof.
  unfold int_div. destruct (b =? 0); [discriminate|].
  destruct (in_int _); discriminate.
Qed.

Lemma urem_not_range a b : urem a b <> Fault OutOfRange.
Proof. unfold urem. destruct (_ =? 0); discriminate. Qed.

Lemma urem_Done a b r :
  0 <= a -> 0 < b < 2 ^ 32 -> urem a b = Done r -> 0 <= r < b.
Proof.
  intros Ha Hb. unfold urem, to_uint32. rewrite (Z.mod_small b) by lia.
  destruct (b =? 0) eqn:E; [apply Z.eqb_eq in E; lia|].
  intros [= <-]. apply Z.mod_pos_bound. lia.
Qed.

(** *** The shuffle *)

Lemma set_nth_perm {A : Type} (a b : A) :
  forall (l : list A) k,
    nth_error l k = Some b -> Permutation (b :: set_nth k a l) (a :: l).
Proof.
  induction l as [|c l IH]; intros [|k]; simpl; try discriminate.
  - intros [= ->]. apply perm_swap.
  - intros Hk. rewrite perm_swap. rewrite (IH k Hk). apply perm_swap.
Qed.

Lemma swap_perm {A : Type} (a b : A) :
  forall (l : list A) i k,
    nth_error l i = Some a -> nth_error l k = Some b ->
    Permutation (set_nth k a (set_nth i b l)) l.
Proof.
  induction l as [|c l IH]; intros [|i] [|k]; simpl; try discriminate.
  - intros [= ->] [= ->]. reflexivity.
  - intros [= ->] Hk. now apply set_nth_perm.
  - intros Hi [= ->]. now apply set_nth_perm.
  - intros Hi Hk. apply perm_skip. now apply IH.
Qed.

Lemma vec_get_nth_error {A : Type} (l : list A) i x :
  vec_get l i = Done x -> nth_error l (Z.to_nat i) = Some x.
Proof.
  unfold vec_get. destruct (i <? 0); [discriminate|].
  destruct (nth_error l (Z.to_nat i)); [|discriminate]. now intros [= ->].
Qed.

Lemma vec_swap_perm {A : Type} (l l' : list A) i k :
  vec_swap l i k = Done l' -> Permutation l' l.
Proof.
  unfold vec_swap. intros E.
  apply bind_Done in E as (a & Ha & E). apply bind_Done in E as (b & Hb & E).
  apply Done_inj in E. subst l'.
  apply vec_get_nth_error in Ha, Hb. now apply swap_perm.
Qed.

Lemma vec_get_not_fault {A : Type} (l : list A) i f :
  0 <= i < Z.of_nat (length l) -> vec_get l i <> Fault f.
Proof.
  intros Hi. destruct (vec_get_in_range l i Hi) as [x ->]. discriminate.
Qed.

Lemma vec_swap_not_fault {A : Type} (l : list A) i k f :
  0 <= i < Z.of_nat (length l) -> 0 <= k < Z.of_nat (length l) ->
  vec_swap l i k <> Fault f.
Proof.
  intros Hi Hk. unfold vec_swap.
  apply bind_not_fault; [now apply vec_get_not_fault|]. intros a _.
  apply bind_not_fault; [now apply vec_get_not_fault|]. intros b _.
  discriminate.
Qed.

Lemma iota_length n : length (iota n) = Z.to_nat n.
Proof. unfold iota. now rewrite length_map, length_seq. Qed.

Lemma iota_In n x : In x (iota n) -> 0 <= x < n.
Proof.
  unfold iota. rewrite in_map_iff. intros (t & <- & Ht).
  apply in_seq in Ht. lia.
Qed.

Section Shuffle.

Context {G : Generator}.

Lemma shuffle_from_spec i :
  forall indices g,
    (i < length indices)%nat ->
    shuffle_from i (indices, g) <> Fault OutOfRange
    /\ (forall indices' g',
          shuffle_from i (indices, g) = Done (indices', g') ->
          Permutation indices' indices).
Proof.
  induction i as [|i IH]; intros indices g Hi; cbn [shuffle_from].
  - split; [discriminate|]. intros indices' g' E.
    apply Done_inj in E. injection E as <- <-. reflexivity.
  - pose proof (rand_range g) as Hx.
    destruct (rand g) as [x g1]. simpl in Hx.
    destruct (int_add (Z.of_nat (S i)) 1) as [i1|f] eqn:Ei;
      [|cbn [bind]; split;
        [intros E; injection E as ->; exact (int_add_not_range _ _ Ei)
        |discriminate]].
    apply int_add_Done in Ei as [-> Hi1]. cbn [bind]. unfold INT_MAX in Hi1.
    destruct (urem x (Z.of_nat (S i) + 1)) as [k|f] eqn:Ek;
      [|cbn [bind]; split;
        [intros E; injection E as ->; exact (urem_not_range _ _ Ek)
        |discriminate]].
    apply urem_Done in Ek; [|lia|lia]. cbn [bind].
    destruct (vec_swap indices (Z.of_nat (S i)) k) as [indices1|f] eqn:Es.
    + cbn [bind]. pose proof (vec_swap_perm _ _ _ _ Es) as Hp.
      assert (Hlen : length indices1 = length indices)
        by (now apply Permutation_length).
      destruct (IH indices1 g1 ltac:(lia)) as [Hnf Hperm].
      split; [exact Hnf|]. intros indices' g' E.
      rewrite (Hperm _ _ E). exact Hp.
    + exfalso. apply (vec_swap_not_fault indices (Z.of_nat (S i)) k f); [lia|lia|exact Es].
Qed.

Lemma shuffle_spec n g :
  0 <= n ->
  shuffle n g <> Fault OutOfRange
  /\ (forall indices g', shuffle n g = Done (indices, g') ->
                         Permutation indices (iota n)).
Proof.
  intros Hn. unfold shuffle.
  destruct (Z.eq_dec n 0) as [->|Hn0].
  - simpl. split; [discriminate|]. intros indices g' E.
    apply Done_inj in E. injection E as <- <-. reflexivity.
  - apply shuffle_from_spec. rewrite iota_length. lia.
Qed.

End Shuffle.

Section Ranges.

Context {G : Generator} {H : Hash}.

(** *** Phase 1 reads no vector and memoizes one address per account *)

Lemma create_account_not_range nSlots j st :
  create_account nSlots j st <> Fault OutOfRange.
Proof.
  unfold create_account.
  destruct (account_value _) as [v g1]. destruct (rand g1) as [x g2].
  apply bind_not_fault; [apply int_mul_not_range|intros twice _].
  apply bind_not_fault; [apply urem_not_range|intros m _].
  destruct (for_pure _ _ _ _) as [[slots g3] total]. discriminate.
Qed.

Lemma phase1_batch_not_range p i w : phase1_batch p i w <> Fault OutOfRange.
Proof.
  unfold phase1_batch.
  apply bind_not_fault; [apply int_add_not_range|intros e _].
  apply bind_not_fault.
  { unfold collect1, for_range. apply for_count_not_fault.
    intros j s _. apply create_account_not_range. }
  intros b _.
  apply bind_not_fault; [apply int_div_not_range|intros q _]. discriminate.
Qed.

Lemma create_account_addrs nSlots j st st' :
  create_account nSlots j st = Done st' ->
  0 <= j < 2 ^ 64 ->
  Z.of_nat (length (b1_addrs st)) = j ->
  Z.of_nat (length (b1_addrs st')) = j + 1.
Proof.
  unfold create_account.
  destruct (account_value _) as [v g1]. destruct (rand g1) as [x g2].
  intros E Hj Hlen.
  apply bind_Done in E as (twice & _ & E). apply bind_Done in E as (m & _ & E).
  destruct (for_pure _ _ _ _) as [[slots g3] total].
  apply Done_inj in E. subst st'. cbn [b1_addrs].
  unfold to_uint64. rewrite (Z.mod_small j) by lia.
  rewrite Hlen, Z.leb_refl, length_app. simpl. lia.
Qed.

Lemma collect1_addrs p i e w b :
  collect1 p i e w = Done b ->
  0 <= i -> e < 2 ^ 64 ->
  Z.of_nat (length (w_addrs w)) = i ->
  Z.of_nat (length (b1_addrs b)) = Z.max i e.
Proof.
  unfold collect1, for_range. intros E Hi He Hlen.
  destruct (Z.le_gt_cases e i) as [Hle|Hgt].
  - replace (Z.to_nat (e - i)) with O in E by lia. simpl in E.
    apply Done_inj in E. subst b. simpl. lia.
  - apply (for_count_inv
             (fun j st => i <= j /\ (j <= e -> Z.of_nat (length (b1_addrs st)) = j)))
      in E.
    + destruct E as [_ E]. rewrite E; lia.
    + intros j s s' [Hij Hs] Hbody. split; [lia|]. intros Hj.
      eapply create_account_addrs; eauto; lia.
    + simpl. split; [lia|auto].
Qed.

Lemma phase1_batch_work p i w l v w' :
  phase1_batch p i w = Done (l, v, w') ->
  exists b,
    collect1 p i (Z.min (i + kCommit p) (nAccounts p)) w = Done b
    /\ w_addrs w' = b1_addrs b
    /\ i + kCommit p <= INT_MAX.
Proof.
  unfold phase1_batch. intros E.
  apply bind_Done in E as (e & He & E). apply int_add_Done in He as [-> He].
  apply bind_Done in E as (b & Hb & E).
  apply bind_Done in E as (q & _ & E).
  apply Done_triple in E as (_ & _ & <-). exists b. simpl. repeat split; auto; lia.
Qed.

(** *** Phase 2 reads inside the shuffled indices and the addresses *)

Lemma modify_slot_not_range nSlots accountIdx addr st :
  modify_slot nSlots accountIdx addr st <> Fault OutOfRange.
Proof.
  unfold modify_slot. destruct st as [[data g] total].
  destruct (rand g) as [x g1].
  apply bind_not_fault; [apply urem_not_range|intros m _].
  destruct (modified_value g1). discriminate.
Qed.

Lemma modify_account_not_range nSlots indices addrs j st n :
  Z.of_nat (length indices) = n -> Z.of_nat (length addrs) = n ->
  (forall x, In x indices -> 0 <= x < n) ->
  0 <= j < n ->
  modify_account nSlots indices addrs j st <> Fault OutOfRange.
Proof.
  intros Hi Ha Hin Hj. unfold modify_account.
  apply bind_not_fault; [apply vec_get_not_fault; lia|]. intros accountIdx Hidx.
  apply vec_get_Done in Hidx as [_ Hidx]. apply Hin in Hidx.
  apply bind_not_fault; [apply vec_get_not_fault; lia|]. intros addr _.
  unfold for_range. apply for_count_not_fault.
  intros j0 s _. apply modify_slot_not_range.
Qed.

Lemma phase2_batch_not_range p m indices i w n :
  Z.of_nat (length indices) = n -> Z.of_nat (length (w_addrs w)) = n ->
  (forall x, In x indices -> 0 <= x < n) ->
  0 <= i -> m <= n ->
  phase2_batch p m indices i w <> Fault OutOfRange.
Proof.
  intros Hi Ha Hin H0 Hm. unfold phase2_batch.
  apply bind_not_fault; [apply int_add_not_range|intros e _].
  apply bind_not_fault.
  { unfold collect2, for_range. apply for_count_not_fault.
    intros j s Hj. eapply modify_account_not_range; eauto. lia. }
  intros [[data g] total] _.
  apply bind_not_fault; [apply int_div_not_range|intros q _]. discriminate.
Qed.

Lemma phase2_batch_addrs p m indices i w l v w' :
  phase2_batch p m indices i w = Done (l, v, w') -> w_addrs w' = w_addrs w.
Proof.
  unfold phase2_batch. intros E.
  apply bind_Done in E as (e & _ & E).
  apply bind_Done in E as ([[data g] total] & _ & E).
  apply bind_Done in E as (q & _ & E).
  apply Done_triple in E as (_ & _ & <-). reflexivity.
Qed.

End Ranges.

Section RunRanges.

Context {G : Generator} {H : Hash} (S : Store).

Lemma do_commit_work ph i l v w d : d_work (do_commit S ph i l v w d) = w.
Proof. unfold do_commit. now destruct (upsert S _ _ _ _). Qed.

Lemma do_commit_log ph i l v w d :
  exists c, d_log (do_commit S ph i l v w d) = d_log d ++ [c]
            /\ c_phase c = ph /\ c_index c = i.
Proof.
  unfold do_commit. destruct (upsert S _ _ _ _). simpl. eauto.
Qed.

(** Phase 1 ends with one memoized address per account, and ends only if
    it steps forward. *)
Lemma creation_loop_addrs p fuel d :
  0 <= nAccounts p ->
  w_addrs (d_work d) = [] -> d_log d = [] ->
  let r := commit_loop S Creation (phase1_batch p) (kCommit p) (nAccounts p) fuel 0 d in
  snd r <> Aborted OutOfRange
  /\ Forall (fun c => c_phase c = Creation) (d_log (fst r))
  /\ (snd r = Finished ->
      Z.of_nat (length (w_addrs (d_work (fst r)))) = nAccounts p
      /\ (0 < nAccounts p -> 0 < kCommit p)).
Proof.
  intros Hn Haddrs Hlog.
  set (n := nAccounts p) in *. set (k := kCommit p) in *.
  apply (commit_loop_inv S Creation (phase1_batch p) k n
    (fun i d =>
       Forall (fun c => c_phase c = Creation) (d_log d)
       /\ (0 < k -> 0 <= i /\ Z.of_nat (length (w_addrs (d_work d))) = Z.min i n)
       /\ (k <= 0 -> i <= 0 /\ w_addrs (d_work d) = []))
    (fun r =>
       snd r <> Aborted OutOfRange
       /\ Forall (fun c => c_phase c = Creation) (d_log (fst r))
       /\ (snd r = Finished ->
           Z.of_nat (length (w_addrs (d_work (fst r)))) = n /\ (0 < n -> 0 < k)))).
  - intros i d0 (Hc & Hpos & Hneg) Hi. simpl.
    split; [discriminate|]. split; [exact Hc|]. intros _.
    destruct (Z.lt_ge_cases 0 k) as [Hk|Hk].
    + destruct (Hpos Hk) as [_ ->]. split; lia.
    + destruct (Hneg Hk) as [Hi0 ->]. simpl. split; lia.
  - intros i d0 (Hc & _) _. simpl. split; [discriminate|]. split; [exact Hc|discriminate].
  - intros i d0 f (Hc & _) _ Hb. simpl. split; [|split; [exact Hc|discriminate]].
    intros [= ->]. exact (phase1_batch_not_range _ _ _ Hb).
  - intros i d0 l v w (Hc & Hpos & Hneg) Hi Hb.
    destruct (do_commit_log Creation i l v w d0) as (c & Elog & Eph & _).
    assert (Hc' : Forall (fun c => c_phase c = Creation)
                    (d_log (do_commit S Creation i l v w d0))).
    { rewrite Elog. apply Forall_app. split; [exact Hc|]. now constructor. }
    destruct (int_add i k) as [i'|f] eqn:Ei.
    + apply int_add_Done in Ei as [-> Hi']. split; [exact Hc'|].
      rewrite do_commit_work.
      apply phase1_batch_work in Hb as (b & Hcol & -> & Hmax). fold k n in Hcol, Hmax.
      unfold INT_MAX in Hmax.
      split.
      * intros Hk. destruct (Hpos Hk) as [Hi0 Hlen]. split; [lia|].
        rewrite (collect1_addrs _ _ _ _ _ Hcol); lia.
      * intros Hk. destruct (Hneg Hk) as [Hi0 Hnil]. split; [lia|].
        unfold collect1, for_range in Hcol.
        replace (Z.to_nat (Z.min (i + k) n - i)) with O in Hcol by lia.
        simpl in Hcol. apply Done_inj in Hcol. subst b. exact Hnil.
    + simpl. split; [|split; [exact Hc'|discriminate]].
      intros [= ->]. exact (int_add_not_range _ _ Ei).
  - split; [rewrite Hlog; constructor|]. split.
    + intros _. rewrite Haddrs. simpl. split; lia.
    + intros _. split; [lia|exact Haddrs].
Qed.

(** Phase 2 reads positions below the clamped count, and accounts below
    the number of addresses. *)
Lemma modification_loop_range p m indices fuel d :
  let n := nAccounts p in
  Z.of_nat (length indices) = n ->
  Z.of_nat (length (w_addrs (d_work d))) = n ->
  (forall x, In x indices -> 0 <= x < n) ->
  m <= n -> (0 < m -> 0 < kCommit p) ->
  Forall (fun c => c_phase c = Modification -> 0 <= c_index c < m) (d_log d) ->
  let r := commit_loop S Modification (phase2_batch p m indices) (kCommit p) m fuel 0 d in
  snd r <> Aborted OutOfRange
  /\ Forall (fun c => c_phase c = Modification -> 0 <= c_index c < m) (d_log (fst r)).
Proof.
  intros n Hidx Haddrs Hin Hm Hk Hlog.
  apply (commit_loop_inv S Modification (phase2_batch p m indices) (kCommit p) m
    (fun i d0 =>
       0 <= i /\ w_addrs (d_work d0) = w_addrs (d_work d)
       /\ Forall (fun c => c_phase c = Modification -> 0 <= c_index c < m) (d_log d0))
    (fun r =>
       snd r <> Aborted OutOfRange
       /\ Forall (fun c => c_phase c = Modification -> 0 <= c_index c < m)
            (d_log (fst r)))).
  - intros i d0 (_ & _ & Hc) _. simpl. split; [discriminate|exact Hc].
  - intros i d0 (_ & _ & Hc) _. simpl. split; [discriminate|exact Hc].
  - intros i d0 f (Hi & Ha & Hc) _ Hb. simpl. split; [|exact Hc].
    intros [= ->]. revert Hb.
    apply (phase2_batch_not_range p m indices i (d_work d0) n); auto.
    now rewrite Ha.
  - intros i d0 l v w (Hi & Ha & Hc) Him Hb.
    destruct (do_commit_log Modification i l v w d0) as (c & Elog & _ & Eidx).
    assert (Hc' : Forall (fun c => c_phase c = Modification -> 0 <= c_index c < m)
                    (d_log (do_commit S Modification i l v w d0))).
    { rewrite Elog. apply Forall_app. split; [exact Hc|].
      constructor; [|constructor]. intros _. lia. }
    destruct (int_add i (kCommit p)) as [i'|f] eqn:Ei.
    + apply int_add_Done in Ei as [-> _]. split; [lia|]. split; [|exact Hc'].
      rewrite do_commit_work. rewrite (phase2_batch_addrs _ _ _ _ _ _ _ _ Hb). exact Ha.
    + simpl. split; [|exact Hc'].
      intros [= ->]. exact (int_add_not_range _ _ Ei).
  - split; [lia|]. split; [reflexivity|exact Hlog].
Qed.

(** C10: the count of accounts to modify is clamped to the count of
    accounts before phase 2, so phase 2 takes its accounts from positions
    below that count of a shuffle of exactly the indices 0 .. nAccounts - 1
    of phase 1, and no subscript of the shuffled indices or of the memoized
    addresses is out of range, whatever the flags -m and -n. *)
Theorem phase2_stays_in_range (p : params) (db : Db S) (fuel : nat) :
  let r := main S p db fuel in
  let m := Z.min (mModify p) (nAccounts p) in
  snd r <> Aborted OutOfRange
  /\ Forall (fun c => c_phase c = Modification -> 0 <= c_index c < m) (d_log (fst r))
  /\ (forall g indices g',
        0 <= nAccounts p ->
        shuffle (nAccounts p) g = Done (indices, g') ->
        Permutation indices (iota (nAccounts p))).
Proof.
  intros r m. subst r.
  assert (Hshuffle : forall g indices g',
             0 <= nAccounts p ->
             shuffle (nAccounts p) g = Done (indices, g') ->
             Permutation indices (iota (nAccounts p))).
  { intros g indices g' Hn E. exact (proj2 (shuffle_spec _ g Hn) _ _ E). }
  unfold main.
  destruct (nAccounts p <? 0) eqn:En.
  { simpl. split; [discriminate|]. split; [constructor|exact Hshuffle]. }
  apply Z.ltb_ge in En.
  match goal with |- context [commit_loop S Creation ?b ?k ?n ?f 0 ?d] =>
    pose proof (creation_loop_addrs p f d En eq_refl eq_refl) as H1;
    cbv zeta in H1;
    destruct (commit_loop S Creation b k n f 0 d) as [d1 s1]
  end.
  simpl in H1. destruct H1 as (Hnr & Hc & Hfin).
  assert (Hc1 : Forall (fun c => c_phase c = Modification -> 0 <= c_index c < m)
                  (d_log d1)).
  { eapply Forall_impl; [|exact Hc]. intros c ->. discriminate. }
  destruct s1; try (split; [exact Hnr|split; [exact Hc1|exact Hshuffle]]).
  destruct (Hfin eq_refl) as [Hlen Hk].
  destruct (shuffle_spec (nAccounts p) (w_gen (d_work d1)) En) as [Hsn Hsp].
  destruct (shuffle _ _) as [[indices g]|f] eqn:Es.
  - specialize (Hsp _ _ eq_refl).
    match goal with |- context [commit_loop S Modification ?b ?k ?bd ?f 0 ?d] =>
      pose proof (modification_loop_range p m indices f d) as H2
    end.
    cbv zeta in H2. simpl d_work in H2. simpl w_addrs in H2. simpl d_log in H2.
    split; [|split; [|exact Hshuffle]]; apply H2; auto; try (subst m; lia).
    all: try (rewrite (Permutation_length Hsp), iota_length; lia).
    all: intros x Hx; apply iota_In; eapply Permutation_in; eauto.
  - simpl. split; [|split; [exact Hc1|exact Hshuffle]].
    intros [= ->]. now apply Hsn.
Qed.

End RunRanges.

(** ** Determinism *)

Section Determinism.

Context {G : Generator} {H : Hash} (S1 S2 : Store).

Lemma do_commit_agree ph i l v w d1 d2 :
  agree d1 d2 -> agree (do_commit S1 ph i l v w d1) (do_commit S2 ph i l v w d2).
Proof.
  intros [_ Hlog]. unfold agree, do_commit.
  destruct (upsert S1 _ _ _ _). destruct (upsert S2 _ _ _ _). simpl.
  split; [reflexivity|]. rewrite !map_app, Hlog. reflexivity.
Qed.

Lemma commit_loop_agree ph batch k bound :
  forall fuel1 fuel2 i d1 d2,
    agree d1 d2 ->
    let r1 := commit_loop S1 ph batch k bound fuel1 i d1 in
    let r2 := commit_loop S2 ph batch k bound fuel2 i d2 in
    snd r1 <> OutOfFuel -> snd r2 <> OutOfFuel ->
    snd r1 = snd r2 /\ agree (fst r1) (fst r2).
Proof.
  induction fuel1 as [|fuel1 IH]; intros fuel2 i d1 d2 Hag;
    destruct fuel2 as [|fuel2]; simpl;
    destruct (i <? bound); simpl; auto; try congruence.
  destruct Hag as [Hw Hlog]. rewrite <- Hw.
  destruct (batch i (d_work d1)) as [[[l v] w]|f]; simpl; [|now auto].
  destruct (int_add i k) as [i'|f]; simpl.
  - apply IH. apply do_commit_agree. now split.
  - intros _ _. split; [reflexivity|]. apply do_commit_agree. now split.
Qed.

(** C8: the generated data are a function of the seed 42 and of the
    parameters alone: two runs with the same parameters hand the same
    update lists (addresses, slot keys, account values, slot values) and
    versions, in the same order, to their stores, and end in the same
    state of the generator, whatever the stores answer and however much
    fuel each run is given beyond what it needs. *)
Theorem generation_is_deterministic (p : params) (db1 : Db S1) (db2 : Db S2)
    (fuel1 fuel2 : nat) :
  let r1 := main S1 p db1 fuel1 in
  let r2 := main S2 p db2 fuel2 in
  snd r1 <> OutOfFuel -> snd r2 <> OutOfFuel ->
  snd r1 = snd r2
  /\ d_work (fst r1) = d_work (fst r2)
  /\ map payload (d_log (fst r1)) = map payload (d_log (fst r2)).
Proof.
  cbv zeta. unfold main.
  destruct (nAccounts p <? 0); [simpl; auto|].
  match goal with
  | |- context [commit_loop S1 Creation ?b ?k ?n fuel1 0 ?d1] =>
    match goal with
    | |- context [commit_loop S2 Creation b k n fuel2 0 ?d2] =>
      pose proof (commit_loop_agree Creation b k n fuel1 fuel2 0 d1 d2
                    (conj eq_refl eq_refl)) as H1;
      cbv zeta in H1;
      destruct (commit_loop S1 Creation b k n fuel1 0 d1) as [e1 s1];
      destruct (commit_loop S2 Creation b k n fuel2 0 d2) as [e2 s2]
    end
  end.
  simpl in H1.
  intros Hf1 Hf2.
  assert (N1 : s1 <> OutOfFuel) by (intros ->; apply Hf1; reflexivity).
  assert (N2 : s2 <> OutOfFuel) by (intros ->; apply Hf2; reflexivity).
  destruct (H1 N1 N2) as [Es [Hw Hlog]]. subst s2.
  revert Hf1 Hf2.
  destruct s1; simpl; auto.
  rewrite <- Hw.
  destruct (shuffle _ _) as [[indices g]|f]; simpl; auto.
  apply commit_loop_agree. split; simpl; [reflexivity|exact Hlog].
Qed.

End Determinism.

(** ** Runs with valid parameters finish *)

Lemma no_fault_Done {A : Type} (m : outcome A) :
  (forall f, m <> Fault f) -> exists a, m = Done a.
Proof. destruct m as [a|f]; [eauto|]. intros Hf. now destruct (Hf f). Qed.

Lemma int_add_ok a b f : INT_MIN <= a + b <= INT_MAX -> int_add a b <> Fault f.
Proof.
  intros Hr. unfold int_add, in_int.
  replace (INT_MIN <=? a + b) with true by (symmetry; apply Z.leb_le; lia).
  replace (a + b <=? INT_MAX) with true by (symmetry; apply Z.leb_le; lia).
  discriminate.
Qed.

Lemma int_mul_ok a b f : INT_MIN <= a * b <= INT_MAX -> int_mul a b <> Fault f.
Proof.
  intros Hr. unfold int_mul, in_int.
  replace (INT_MIN <=? a * b) with true by (symmetry; apply Z.leb_le; lia).
  replace (a * b <=? INT_MAX) with true by (symmetry; apply Z.leb_le; lia).
  discriminate.
Qed.

Lemma int_mul_Done a b c : int_mul a b = Done c -> c = a * b.
Proof. unfold int_mul. destruct (in_int _); [|discriminate]. now intros [= <-]. Qed.

Lemma int_div_ok a b f : 0 <= a <= INT_MAX -> 0 < b -> int_div a b <> Fault f.
Proof.
  intros Ha Hb. unfold int_div, in_int.
  replace (b =? 0) with false by (symmetry; apply Z.eqb_neq; lia).
  assert (0 <= Z.quot a b <= a).
  { split; [apply Z.quot_pos; lia|]. rewrite Z.quot_div_nonneg by lia.
    apply Z.div_le_upper_bound; nia. }
  unfold INT_MIN, INT_MAX in *.
  replace (- 2 ^ 31 <=? Z.quot a b) with true by (symmetry; apply Z.leb_le; lia).
  replace (Z.quot a b <=? 2 ^ 31 - 1) with true by (symmetry; apply Z.leb_le; lia).
  discriminate.
Qed.

Lemma urem_ok a b f : 0 < b < 2 ^ 32 -> urem a b <> Fault f.
Proof.
  intros Hb. unfold urem, to_uint32. rewrite Z.mod_small by lia.
  replace (b =? 0) with false by (symmetry; apply Z.eqb_neq; lia).
  discriminate.
Qed.

Section Finishing.

Context {G : Generator} {H : Hash}.

Lemma create_account_ok nSlots j st f :
  0 < nSlots <= 2 ^ 30 - 1 -> create_account nSlots j st <> Fault f.
Proof.
  intros Hs. unfold create_account.
  destruct (account_value _) as [v g1]. destruct (rand g1) as [x g2].
  apply bind_not_fault; [apply int_mul_ok; unfold INT_MIN, INT_MAX; lia|].
  intros twice Htw. apply int_mul_Done in Htw. subst twice.
  apply bind_not_fault; [apply urem_ok; lia|intros m _].
  destruct (for_pure _ _ _ _) as [[slots g3] total]. discriminate.
Qed.

Lemma phase1_batch_ok p i w f :
  valid p -> 0 <= i < nAccounts p -> phase1_batch p i w <> Fault f.
Proof.
  intros (Hk & Hn & Hnk & Hs) Hi. unfold phase1_batch. unfold INT_MAX in Hnk.
  apply bind_not_fault; [apply int_add_ok; unfold INT_MIN, INT_MAX; lia|].
  intros e _. apply bind_not_fault.
  { unfold collect1, for_range. apply for_count_not_fault.
    intros j s _. now apply create_account_ok. }
  intros b _.
  apply bind_not_fault; [apply int_div_ok; unfold INT_MAX; lia|].
  intros q _. discriminate.
Qed.

Lemma modify_account_ok nSlots indices addrs j st n f :
  0 < nSlots <= 2 ^ 30 - 1 ->
  Z.of_nat (length indices) = n -> Z.of_nat (length addrs) = n ->
  (forall x, In x indices -> 0 <= x < n) ->
  0 <= j < n ->
  modify_account nSlots indices addrs j st <> Fault f.
Proof.
  intros Hs Hi Ha Hin Hj. unfold modify_account.
  apply bind_not_fault; [apply vec_get_not_fault; lia|]. intros accountIdx Hidx.
  apply vec_get_Done in Hidx as [_ Hidx]. apply Hin in Hidx.
  apply bind_not_fault; [apply vec_get_not_fault; lia|]. intros addr _.
  unfold for_range. apply for_count_not_fault.
  intros j0 [[data g] total] _. unfold modify_slot.
  destruct (rand g) as [x g1].
  apply bind_not_fault; [apply urem_ok; lia|intros m _].
  destruct (modified_value g1). discriminate.
Qed.

Lemma phase2_batch_ok p m indices i w f :
  valid p ->
  Z.of_nat (length indices) = nAccounts p ->
  Z.of_nat (length (w_addrs w)) = nAccounts p ->
  (forall x, In x indices -> 0 <= x < nAccounts p) ->
  0 <= i < m -> m <= nAccounts p ->
  phase2_batch p m indices i w <> Fault f.
Proof.
  intros (Hk & Hn & Hnk & Hs) Hi Ha Hin H0 Hm. unfold phase2_batch.
  unfold INT_MAX in Hnk.
  apply bind_not_fault; [apply int_add_ok; unfold INT_MIN, INT_MAX; lia|].
  intros e _. apply bind_not_fault.
  { unfold collect2, for_range. apply for_count_not_fault.
    intros j s Hj. eapply modify_account_ok; eauto. lia. }
  intros [[data g] total] _.
  apply bind_not_fault; [apply int_div_ok; unfold INT_MAX; lia|].
  intros q _. discriminate.
Qed.

Lemma shuffle_from_ok i f :
  forall indices g,
    (i < length indices)%nat -> Z.of_nat (length indices) <= INT_MAX ->
    shuffle_from i (indices, g) <> Fault f.
Proof.
  induction i as [|i IH]; intros indices g Hi Hmax; cbn [shuffle_from];
    [discriminate|].
  pose proof (rand_range g) as Hx.
  destruct (rand g) as [x g1]. simpl in Hx. unfold INT_MAX in Hmax.
  apply bind_not_fault; [apply int_add_ok; unfold INT_MIN, INT_MAX; lia|].
  intros i1 Hi1. apply int_add_Done in Hi1 as [-> _].
  apply bind_not_fault; [apply urem_ok; lia|].
  intros k Hk. apply urem_Done in Hk; [|lia|lia].
  apply bind_not_fault; [apply vec_swap_not_fault; lia|].
  intros indices1 Hs. apply vec_swap_perm, Permutation_length in Hs.
  apply IH; unfold INT_MAX; lia.
Qed.

Lemma shuffle_ok n g f : 0 <= n <= INT_MAX -> shuffle n g <> Fault f.
Proof.
  intros Hn. unfold shuffle.
  destruct (Z.eq_dec n 0) as [->|Hn0]; [discriminate|].
  apply shuffle_from_ok; rewrite iota_length; lia.
Qed.

Section Loop.

Variable S : Store.

(** A loop that steps forward and whose batches do not fault needs no
    more fuel than its bound. *)
Lemma commit_loop_finishes ph batch k bound (Inv : Z -> driver S -> Prop) :
  0 < k ->
  (forall i d, Inv i d -> i < bound ->
     exists l v w i',
       batch i (d_work d) = Done (l, v, w)
       /\ int_add i k = Done i'
       /\ Inv i' (do_commit S ph i l v w d)) ->
  forall fuel i d,
    Inv i d -> bound - i <= Z.of_nat fuel ->
    snd (commit_loop S ph batch k bound fuel i d) = Finished.
Proof.
  intros Hk Hstep. induction fuel as [|fuel IH]; intros i d Hinv Hfuel; simpl.
  - replace (i <? bound) with false by (symmetry; apply Z.ltb_ge; lia). reflexivity.
  - destruct (i <? bound) eqn:E; [|reflexivity]. apply Z.ltb_lt in E.
    destruct (Hstep i d Hinv E) as (l & v & w & i' & -> & Hi' & Hinv').
    rewrite Hi'. apply int_add_Done in Hi' as [-> _].
    apply IH; [exact Hinv'|lia].
Qed.

(** With valid parameters a run finishes: both phases commit all their
    batches. *)
Theorem run_finishes (p : params) (db : Db S) :
  valid p -> snd (main S p db (Z.to_nat (nAccounts p))) = Finished.
Proof.
  intros Hv. pose proof Hv as (Hk & Hn & Hnk & Hs). unfold INT_MAX in Hnk.
  set (fuel := Z.to_nat (nAccounts p)).
  unfold main. replace (nAccounts p <? 0) with false by (symmetry; apply Z.ltb_ge; lia).
  match goal with |- context [commit_loop S Creation ?b ?k ?n ?f 0 ?d] =>
    pose proof (creation_loop_addrs S p f d Hn eq_refl eq_refl) as H1;
    cbv zeta in H1;
    assert (F1 : snd (commit_loop S Creation b k n f 0 d) = Finished);
    [|destruct (commit_loop S Creation b k n f 0 d) as [d1 s1]]
  end.
  { apply (commit_loop_finishes Creation _ _ _ (fun i _ => 0 <= i)); try lia.
    intros i d Hi Hlt.
    destruct (no_fault_Done (phase1_batch p i (d_work d))) as [[[l v] w] Hb].
    { intros f. apply phase1_batch_ok; auto. }
    destruct (no_fault_Done (int_add i (kCommit p))) as [i' Hi'].
    { intros f. apply int_add_ok. unfold INT_MIN, INT_MAX. lia. }
    exists l, v, w, i'. repeat split; auto.
    apply int_add_Done in Hi' as [-> _]. lia. }
  simpl in F1, H1. subst s1. destruct H1 as (_ & _ & Hfin).
  destruct (Hfin eq_refl) as [Hlen _].
  destruct (shuffle_spec (nAccounts p) (w_gen (d_work d1)) Hn) as [_ Hsp].
  destruct (no_fault_Done (shuffle (nAccounts p) (w_gen (d_work d1))))
    as [[indices g] Hsh].
  { intros f. apply shuffle_ok. unfold INT_MAX. lia. }
  rewrite Hsh. specialize (Hsp _ _ Hsh).
  match goal with |- context [commit_loop S Modification ?b ?k ?bd ?f 0 ?d] =>
    apply (commit_loop_finishes Modification b k bd
             (fun i d0 => 0 <= i /\ w_addrs (d_work d0) = w_addrs (d_work d1)))
  end; try lia; [|split; [lia|reflexivity]].
  intros i d [Hi Ha] Hlt.
  destruct (no_fault_Done
              (phase2_batch p (Z.min (mModify p) (nAccounts p)) indices i (d_work d)))
    as [[[l v] w] Hb].
  { intros f. apply phase2_batch_ok; auto; try lia.
    - rewrite (Permutation_length Hsp), iota_length. lia.
    - now rewrite Ha.
    - intros x Hx. apply iota_In. eapply Permutation_in; eauto. }
  destruct (no_fault_Done (int_add i (kCommit p))) as [i' Hi'].
  { intros f. apply int_add_ok. unfold INT_MIN, INT_MAX. lia. }
  exists l, v, w, i'. repeat split; auto.
  - apply int_add_Done in Hi' as [-> _]. lia.
  - rewrite do_commit_work. rewrite (phase2_batch_addrs _ _ _ _ _ _ _ _ Hb). exact Ha.
Qed.

End Loop.

End Finishing.

(** ** Concrete runs *)

Lemma is_done_Done {A : Type} (m : outcome A) :
  is_done m = true -> exists a, m = Done a.
Proof. destruct m as [a|f]; [eauto|discriminate]. Qed.

(** Keccak-256 of the empty string: c5d24601 86f7233c ... 5d85a470. *)
Example keccak256_empty :
  keccak256 [] =
  [197; 210; 70; 1; 134; 247; 35; 60; 146; 126; 125; 178; 220; 199; 3; 192;
   229; 0; 182; 83; 202; 130; 39; 59; 123; 250; 216; 4; 93; 133; 164; 112].
Proof. vm_compute. reflexivity. Qed.

(** The scenario of two accounts, one per commit, with one slot on
    average and nothing to modify: two batches of one account node each,
    at versions 1 and 2. *)
Example two_single_account_batches :
  let r := main record_store
             {| nAccounts := 2; nSlots := 1; mModify := 0; kCommit := 1 |} [] 2 in
  snd r = Finished
  /\ map stamp (d_log (fst r)) = [(Creation, 0, 1); (Creation, 1, 2)]
  /\ map (fun c => length (c_updates c)) (d_log (fst r)) = [1%nat; 1%nat].
Proof. vm_compute. repeat split; reflexivity. Qed.

(** The small run commits one batch in phase 1: its versions increase. *)
Lemma versions_strictly_increasing_witness :
  Z.of_nat (length (filter is_creation
                      (d_log (fst (main record_store sample_params [] 5)))))
  < 1000000
  /\ StronglySorted Z.lt
       (map c_version (d_log (fst (main record_store sample_params [] 5)))).
Proof.
  assert (Hfew : Z.of_nat (length (filter is_creation
                   (d_log (fst (main record_store sample_params [] 5)))))
                 < 1000000)
    by (rewrite sample_log_eq; vm_compute; reflexivity).
  split; [exact Hfew|].
  exact (proj1 (versions_strictly_increasing record_store sample_params [] 5 Hfew)).
Defined.

(** The small run on the recording store with fuel 5 and on the store that
    keeps nothing with fuel 7: same status, same update lists and versions. *)
Lemma generation_is_deterministic_witness :
  snd (main record_store sample_params [] 5) = snd (main null_store sample_params tt 7)
  /\ map payload (d_log (fst (main record_store sample_params [] 5)))
     = map payload (d_log (fst (main null_store sample_params tt 7))).
Proof.
  assert (H1 : snd (main record_store sample_params [] 5) <> OutOfFuel)
    by (vm_compute; discriminate).
  assert (H2 : snd (main null_store sample_params tt 7) <> OutOfFuel)
    by (vm_compute; discriminate).
  destruct (generation_is_deterministic record_store null_store
              sample_params [] tt 5 7 H1 H2) as (Hs & _ & Hl).
  split; [exact Hs|exact Hl].
Defined.

(** The first batch of each phase of the run of two accounts returns its
    map, which reads the latest writes and has no key twice. *)
Lemma dedup_latest_write_wins_witness :
  (exists b ws,
      collect1 two_accounts 0 2 fresh = Done b
      /\ (forall a k, slot_of1 a k (b1_data b) = last_slot_write a k ws)
      /\ NoDup (map key (build_updates1 (b1_data b))))
  /\ (exists data g total ws,
         collect2 two_accounts [1; 0] 0 1 memoized = Done (data, g, total)
         /\ (forall a k, slot_of2 a k data = last_slot_write a k ws)
         /\ NoDup (map key (build_updates2 data))).
Proof.
  pose proof (dedup_latest_write_wins two_accounts [1; 0] 0 2 fresh) as [T1 _].
  pose proof (dedup_latest_write_wins two_accounts [1; 0] 0 1 memoized) as [_ T2].
  split.
  - assert (E : exists b, collect1 two_accounts 0 2 fresh = Done b)
      by (apply is_done_Done; vm_compute; reflexivity).
    destruct E as [b E].
    destruct (T1 b E) as (ws & _ & _ & S1 & _ & N & _).
    exists b, ws. auto.
  - assert (E : exists r, collect2 two_accounts [1; 0] 0 1 memoized = Done r)
      by (apply is_done_Done; vm_compute; reflexivity).
    destruct E as [[[data g] total] E].
    destruct (T2 data g total E) as (ws & _ & S2 & _ & N & _).
    exists data, g, total, ws. auto.
Defined.

(** The first batch of each phase of the run of two accounts returns an
    update list with strictly descending keys. *)
Lemma update_lists_reverse_canonical_witness :
  (exists l v w', phase1_batch two_accounts 0 fresh = Done (l, v, w') /\ descending l)
  /\ (exists l v w',
         phase2_batch two_accounts 1 [1; 0] 0 memoized = Done (l, v, w')
         /\ descending l).
Proof.
  pose proof (update_lists_reverse_canonical two_accounts 1 [1; 0] 0 fresh) as [T1 _].
  pose proof (update_lists_reverse_canonical two_accounts 1 [1; 0] 0 memoized) as [_ T2].
  split.
  - assert (E : exists r, phase1_batch two_accounts 0 fresh = Done r)
      by (apply is_done_Done; vm_compute; reflexivity).
    destruct E as [[[l v] w'] E].
    destruct (T1 l v w' E) as (b & _ & _ & _ & D & _). eauto.
  - assert (E : exists r, phase2_batch two_accounts 1 [1; 0] 0 memoized = Done r)
      by (apply is_done_Done; vm_compute; reflexivity).
    destruct E as [[[l v] w'] E].
    destruct (T2 l v w' E) as (data & g & total & _ & _ & _ & D & _). eauto.
Defined.

(** The account nodes of the first batch of phase 1 carry 40 bytes, those
    of the first batch of phase 2 no value. *)
Lemma account_nodes_carry_values_witness :
  (exists l v w',
      phase1_batch two_accounts 0 fresh = Done (l, v, w')
      /\ Forall (fun u => exists val, value u = Some val /\ length val = 40%nat) l)
  /\ (exists l v w',
         phase2_batch two_accounts 1 [1; 0] 0 memoized = Done (l, v, w')
         /\ Forall (fun u => value u = None) l).
Proof.
  pose proof (account_nodes_carry_values two_accounts 1 [1; 0] 0 fresh) as (T1 & _ & _).
  pose proof (account_nodes_carry_values two_accounts 1 [1; 0] 0 memoized) as (_ & _ & T2).
  split.
  - assert (E : exists r, phase1_batch two_accounts 0 fresh = Done r)
      by (apply is_done_Done; vm_compute; reflexivity).
    destruct E as [[[l v] w'] E].
    destruct (T1 l v w' E) as (ws & g' & _ & _ & F).
    exists l, v, w'. split; [exact E|].
    eapply Forall_impl; [|exact F]. intros u (val & Hv & _ & Hl & _). eauto.
  - assert (E : exists r, phase2_batch two_accounts 1 [1; 0] 0 memoized = Done r)
      by (apply is_done_Done; vm_compute; reflexivity).
    destruct E as [[[l v] w'] E].
    exists l, v, w'. split; [exact E|]. exact (T2 l v w' E).
Defined.

(** Without the clamp of line 203 a count of three accounts to modify,
    for two accounts, reads the shuffled indices out of range. *)
Example unclamped_count_reads_out_of_range :
  match phase2_batch
          {| nAccounts := 2; nSlots := 2; mModify := 3; kCommit := 3 |}
          3 [1; 0] 0 memoized with
  | Fault OutOfRange => True
  | _ => False
  end.
Proof. vm_compute. exact I. Qed.

(** The sizes of a sample tree: a missing path, a directory, a file. *)
Example get_dir_size_sample :
  get_dir_size sample_tree ["missing"%string] = Done 0
  /\ get_dir_size sample_tree ["db"%string] = Done (4096 + 8192 + 100)
  /\ get_dir_size sample_tree ["db"%string; "chunk1"%string] = Done 8192
  /\ file_size sample_tree ["missing"%string] = Fault FilesystemError.
Proof. repeat split; reflexivity. Qed.

(** The parameters of the small run are valid: it finishes. *)
Lemma run_finishes_witness :
  valid sample_params
  /\ snd (main record_store sample_params [] (Z.to_nat (nAccounts sample_params)))
     = Finished.
Proof.
  assert (Hv : valid sample_params) by (unfold valid, INT_MAX; simpl; lia).
  split; [exact Hv|]. exact (run_finishes record_store sample_params [] Hv).
Defined.
